(** * Recruiter outreach automation: rate limiter and dispatcher

    A shallow embedding of [src/utils/ratelimiter.py], [src/utils/config.py],
    the sending half of [src/outreach/__init__.py] and [src/main.py].

    Conventions of the embedding:
    - a Python [str] is a [string]; each [ascii] stands for one code point
      below 256;
    - a reading of [time.time()] is an exact integer number of clock units
      (the source has floats); [period] and the sleeps are in the same unit;
    - effects (clock, SMTP relay, log, exceptions, the one [RateLimiter]
      object) are threaded through the monad [M] over a [World];
    - the thread pool is run under the schedule in which submitted tasks
      execute one after the other, in submission order. *)

From Stdlib Require Import Ascii String.
From stdpp Require Import base decidable option numbers list strings gmap pretty.

Open Scope Z_scope.

(** ** Python values, exceptions and log records *)

(** The values that reach this program through [os.getenv], through the
    record dictionaries of [DataFrame.to_dict("records")] and as return
    values. [PyNaN] is the float a data frame holds for an empty cell;
    [PyObj] is an object seen through its attributes. *)
#[warnings="-register-all"] Inductive pyval :=
| PyNone
| PyStr (s : string)
| PyInt (z : Z)
| PyNaN
| PyObj (attrs : list (string * pyval)).

(** The exceptions of class [Exception] that this program meets;
    [OtherError] is any further one. *)
Inductive exn :=
| NameError (name : string)
| ValueError (msg : string)
| KeyError (key : string)
| IndexError
| FileNotFoundError
| OSError
| SMTPException
| EmptyDataError
| OtherError.

Inductive level := INFO | WARNING | ERROR.

(** One constructor per log call of the source, carrying the interpolated
    values of its f-string. *)
Inductive message :=
| RateLimitReached (sleep_time : Z)
| TemplateLoaded (path : string)
| TemplateFileNotFound (path : string)
| TemplateLoadError (e : exn)
| TemplateNotLoaded
| TemplateMissingPlaceholder (e : exn)
| ResumeNotFound (path : string)
| ResumeAttachError (e : exn)
| SentSuccessfully (hr_name hr_email : string) (attempts : Z)
| SmtpError (hr_email : string) (attempt : Z) (e : exn)
| OsError (hr_email : string) (attempt : Z) (e : exn)
| UnexpectedError (hr_email : string) (attempt : Z) (e : exn)
| Retrying (sleep_time : Z)
| FailedAfter (hr_email : string) (max_retries : Z)
| SkippingInvalidEmail (hr_email : string)
| SubmittingTask (hr_email : string)
| SkippingMissingKey (e : exn) (record : gmap string pyval)
| ErrorSubmitting (email : option pyval) (e : exn)
| TaskFailed (e : exn)
| ConfigurationError (e : exn)
| LoadingFromPdf (path : string)
| LoadingFromCsv (path : string)
| CsvNotFound (path : string)
| CsvEmpty (path : string)
| MissingColumns
| LoadedRecords (n : nat)
| DataMissingColumn (e : exn)
| NoRecruiterData.

(** What one SMTP session (connect, starttls, login, sendmail) does. *)
Inductive smtp_result :=
| Delivered
| SessionRaises (e : exn).

(** The MIME message handed to [sendmail]: headers, text part and the one
    attachment. *)
Record Message := mkMessage {
  msg_from : string;
  msg_to : string;
  msg_subject : string;
  msg_body : string;
  msg_attachment_name : string;
  msg_attachment : string;
}.

Inductive event :=
| EvAcquire (granted : Z)
| EvSleep (seconds : Z)
| EvSmtp (from_addr to_addr : string) (msg : Message) (r : smtp_result)
| EvLog (lvl : level) (m : message).

(** A path of the file system: a file that [open] can read, or something
    that exists but cannot be opened for reading (a directory, a file
    without permission). *)
Inductive file :=
| Readable (content : string)
| Unreadable.

(** ** The rate limiter object *)

Record RateLimiter := mkRateLimiter {
  calls_per_period : Z;
  period : Z;
  timestamps : list Z;
}.

(** ** The world and the monad *)

Record World := mkWorld {
  clock : Z;                      (* last value of the system clock *)
  drift : nat → Z;                (* time passing before the n-th clock reading *)
  reads : nat;                    (* clock readings made so far *)
  relay : nat → smtp_result;      (* behaviour of the n-th SMTP session *)
  sessions : nat;                 (* SMTP sessions opened so far *)
  environ : gmap string string;   (* os.environ once load_dotenv has run *)
  files : gmap string file;       (* the file system *)
  email_rate_limiter : RateLimiter;
  trace : list event;             (* newest event first *)
}.

(** How a call ends: it returns, raises an [Exception], or leaves through
    [sys.exit], which no handler of this program catches. *)
Inductive result (A : Type) :=
| Ok (a : A)
| Raise (e : exn)
| Exit (code : Z).
Arguments Ok {A} a.
Arguments Raise {A} e.
Arguments Exit {A} code.

Definition M (A : Type) : Type := World → result A * World.

#[export] Instance M_ret : MRet M := λ A a w, (Ok a, w).
#[export] Instance M_bind : MBind M := λ A B f m w,
  match m w with
  | (Ok a, w') => f a w'
  | (Raise e, w') => (Raise e, w')
  | (Exit code, w') => (Exit code, w')
  end.

Definition raise {A} (e : exn) : M A := λ w, (Raise e, w).

(** [sys.exit(code)] *)
Definition sys_exit {A} (code : Z) : M A := λ w, (Exit code, w).

(** [try: m except <handles>: handler] *)
Definition try_except {A} (m : M A) (handler : exn → option (M A)) : M A := λ w,
  match m w with
  | (Ok a, w') => (Ok a, w')
  | (Raise e, w') =>
      match handler e with
      | Some h => h w'
      | None => (Raise e, w')
      end
  | (Exit code, w') => (Exit code, w')
  end.

Definition emit (ev : event) : M unit := λ w,
  (Ok (), mkWorld (clock w) (drift w) (reads w) (relay w) (sessions w)
                  (environ w) (files w) (email_rate_limiter w) (ev :: trace w)).

Definition log (lvl : level) (m : message) : M unit := emit (EvLog lvl m).

Definition get_limiter : M RateLimiter := λ w, (Ok (email_rate_limiter w), w).

Definition set_limiter (rl : RateLimiter) : M unit := λ w,
  (Ok (), mkWorld (clock w) (drift w) (reads w) (relay w) (sessions w)
                  (environ w) (files w) rl (trace w)).

(** [time.time()]: the clock moves on by the drift of this reading. *)
Definition time_time : M Z := λ w,
  let now := clock w + drift w (reads w) in
  (Ok now, mkWorld now (drift w) (S (reads w)) (relay w) (sessions w)
                   (environ w) (files w) (email_rate_limiter w) (trace w)).

(** [time.sleep(d)]: refuses a negative length, otherwise the clock moves on
    by [d]; any oversleep is part of the drift of the next reading. *)
Definition time_sleep (d : Z) : M unit := λ w,
  if decide (d < 0) then (Raise (ValueError "sleep length must be non-negative"), w)
  else (Ok (), mkWorld (clock w + d) (drift w) (reads w) (relay w) (sessions w)
                       (environ w) (files w) (email_rate_limiter w) (EvSleep d :: trace w)).

(** ** [utils/ratelimiter.py] *)

(** Names bound at module level in [ratelimiter.py]: the one import, the
    class, and the module attributes every module has. *)
Definition ratelimiter_globals : list string :=
  ["time"; "RateLimiter"; "__name__"; "__doc__"; "__file__"; "__builtins__"].

(** The built-in names the modelled modules refer to. *)
Definition builtin_names : list string :=
  ["max"; "len"; "int"; "str"; "all"; "open"; "range"; "Exception";
   "ValueError"; "KeyError"; "FileNotFoundError"; "OSError"].

(** Evaluating a global name: module globals first, then the built-ins. *)
Definition load_global (globals : list string) (name : string) : M unit :=
  if decide (name ∈ globals) then mret ()
  else if decide (name ∈ builtin_names) then mret ()
  else raise (NameError name).

(** Lines 10-12 of [RateLimiter.__init__]: the three attribute assignments. *)
Definition RateLimiter_fields (calls_per_period period : Z) : RateLimiter :=
  mkRateLimiter (Z.max 1 calls_per_period) (Z.max 1 period) [].

(** [RateLimiter.__init__]; line 13 evaluates [logging.getLogger(__name__)]. *)
Definition RateLimiter_init (calls_per_period period : Z) : M RateLimiter :=
  load_global ratelimiter_globals "max";;
  let self := RateLimiter_fields calls_per_period period in
  load_global ratelimiter_globals "logging";;
  load_global ratelimiter_globals "__name__";;
  mret self.

Definition set_timestamps (ts : list Z) : M unit :=
  self ← get_limiter;
  set_limiter (mkRateLimiter (calls_per_period self) (period self) ts).

(** [RateLimiter.wait] *)
Definition wait : M unit :=
  now ← time_time;
  self ← get_limiter;
  let kept := filter (λ t, now - period self < t) (timestamps self) in
  set_timestamps kept;;
  now ← (if decide (calls_per_period self ≤ Z.of_nat (length kept)) then
           match kept with
           | [] => raise IndexError
           | first :: _ =>
               let time_since_first_call := now - first in
               let sleep_time := period self - time_since_first_call in
               (if decide (0 < sleep_time) then
                  log WARNING (RateLimitReached sleep_time);;
                  time_sleep sleep_time
                else mret ());;
               time_time
           end
         else mret now);
  self ← get_limiter;
  set_timestamps (timestamps self ++ [now]);;
  emit (EvAcquire now).

(** [n] calls of [wait], one after the other. *)
Fixpoint wait_times (n : nat) : M unit :=
  match n with
  | O => mret ()
  | S n' => wait;; wait_times n'
  end.

(** The timestamps granted so far, newest first. *)
Definition granted (tr : list event) : list Z :=
  omap (λ ev, match ev with EvAcquire t => Some t | _ => None end) tr.

(** A world at process start. *)
Definition boot (t0 : Z) (drift : nat → Z) (relay : nat → smtp_result)
    (environ : gmap string string) (files : gmap string file)
    (rl : RateLimiter) : World :=
  mkWorld t0 drift 0 relay 0 environ files rl [].


(** ** Python string operations used by the dispatcher *)

Definition code (c : ascii) : N := N_of_ascii c.

Definition in_range (lo hi : ascii) (c : ascii) : bool :=
  ((code lo <=? code c) && (code c <=? code hi))%N.

(** [str.isspace] on the code points below 256. *)
Definition is_space (c : ascii) : bool :=
  ((9 <=? code c) && (code c <=? 13) || (28 <=? code c) && (code c <=? 32)
   || (code c =? 133) || (code c =? 160))%N.

(** [s.split()]: the maximal runs of non-whitespace, in order. [cur] is the
    run being read, last character first. *)
Fixpoint split_go (cur : list ascii) (s : list ascii) : list (list ascii) :=
  match s with
  | [] => match cur with [] => [] | _ => [reverse cur] end
  | c :: s' =>
      if is_space c then
        match cur with
        | [] => split_go [] s'
        | _ => reverse cur :: split_go [] s'
        end
      else split_go (c :: cur) s'
  end.

Definition py_split (s : string) : list string :=
  string_of_list_ascii <$> split_go [] (list_ascii_of_string s).

Fixpoint lstrip (s : list ascii) : list ascii :=
  match s with
  | c :: s' => if is_space c then lstrip s' else s
  | [] => []
  end.

(** [s.strip()] *)
Definition py_strip (s : string) : string :=
  string_of_list_ascii
    (reverse (lstrip (reverse (lstrip (list_ascii_of_string s))))).

(** [str(v)] *)
Definition py_str (v : pyval) : string :=
  match v with
  | PyNone => "None"
  | PyStr s => s
  | PyInt z => pretty z
  | PyNaN => "nan"
  | PyObj _ => "<object>"
  end.

(** Truth value of a Python value, as [not v] and [all([...])] test it. *)
Definition truthy (v : pyval) : bool :=
  match v with
  | PyNone => false
  | PyStr s => negb (String.eqb s "")
  | PyInt z => negb (z =? 0)
  | PyNaN => true
  | PyObj _ => true
  end.

(** Attribute access on a returned value; [None] stands for AttributeError. *)
Definition getattr (v : pyval) (name : string) : option pyval :=
  match v with
  | PyObj attrs => (λ hit, hit.2.2) <$> list_find (λ kv, kv.1 = name) attrs
  | _ => None
  end.

(** [os.path.basename]: what follows the last slash. *)
Fixpoint basename_go (cur : list ascii) (s : list ascii) : list ascii :=
  match s with
  | [] => reverse cur
  | c :: s' => if decide (c = "/"%char) then basename_go [] s' else basename_go (c :: cur) s'
  end.

Definition basename (path : string) : string :=
  string_of_list_ascii (basename_go [] (list_ascii_of_string path)).

(** ** The compiled pattern [self.email_regex]

    The pattern is a sequence of literals and greedy repetitions of a
    character class, matched the way [re] does: a repetition first takes as
    many characters as it can and gives them back one at a time when the
    rest of the pattern fails. *)

Inductive atom :=
| Lit (c : ascii)
| Rep (cls : ascii → bool) (least : nat).

(** A greedy repetition of at least [least] characters of [cls], followed
    by the rest of the pattern [k]: take one more character when possible,
    otherwise (or when that fails further on) stop here. *)
Fixpoint rep_greedy (cls : ascii → bool) (k : list ascii → option nat)
    (least : nat) (s : list ascii) : option nat :=
  let stop := match least with O => k s | S _ => None end in
  match s with
  | x :: s' =>
      if cls x then
        match rep_greedy cls k (pred least) s' with
        | Some n => Some (S n)
        | None => stop
        end
      else stop
  | [] => stop
  end.

(** Number of characters the pattern consumes at the start of [s]. *)
Fixpoint match_here (p : list atom) (s : list ascii) {struct p} : option nat :=
  match p with
  | [] => Some 0%nat
  | Lit c :: p' =>
      match s with
      | x :: s' => if decide (x = c) then S <$> match_here p' s' else None
      | [] => None
      end
  | Rep cls least :: p' => rep_greedy cls (match_here p') least s
  end.

(** [pattern.search(s)]: the match at the leftmost position that has one. *)
Fixpoint re_search (p : list atom) (s : list ascii) : option (list ascii) :=
  match match_here p s with
  | Some k => Some (take k s)
  | None =>
      match s with
      | [] => None
      | _ :: s' => re_search p s'
      end
  end.

Definition alnum (c : ascii) : bool :=
  in_range "a" "z" c || in_range "A" "Z" c || in_range "0" "9" c.

Definition alpha (c : ascii) : bool :=
  in_range "a" "z" c || in_range "A" "Z" c.

(** [[a-zA-Z0-9._%+-]] *)
Definition local_char (c : ascii) : bool :=
  alnum c || bool_decide (c ∈ ["."; "_"; "%"; "+"; "-"]%char).

(** [[a-zA-Z0-9.-]] *)
Definition domain_char (c : ascii) : bool :=
  alnum c || bool_decide (c ∈ ["."; "-"]%char).

(** [([a-zA-Z0-9._%+-]+@[a-zA-Z0-9.-]+\.[a-zA-Z]{2,})]; group 1 is the whole
    match. *)
Definition email_regex : list atom :=
  [Rep local_char 1; Lit "@"; Rep domain_char 1; Lit "."; Rep alpha 2].

(** [OutreachManager._find_email] *)
Definition _find_email (text : option string) : option string :=
  match text with
  | None => None
  | Some text =>
      string_of_list_ascii <$> re_search email_regex (list_ascii_of_string text)
  end.

(** ** Library calls taken as given

    The format mini-language of [str.format], the literal syntax of [int]
    and the reader of pandas are not part of this repository; the program is
    embedded over any behaviour of theirs. The same is done for the result
    of [load_recruiters_from_pdf], which rests on the table extraction of
    pdfplumber; its log lines and the CSV file it writes are left out. *)

(** A [DataFrame]: column labels and rows of cells. *)
Record frame := mkFrame {
  columns : list string;
  rows : list (list pyval);
}.

Class Runtime := {
  (* template.format applied to the template variables *)
  str_format : string → list (string * string) → exn + string;
  (* int(v) *)
  py_int : pyval → exn + Z;
  (* pd.read_csv(path) *)
  read_csv : string → exn + frame;
  (* what load_recruiters_from_pdf(path) returns: a frame or None *)
  load_recruiters_from_pdf : string → option frame;
}.

Definition lift {A} (r : exn + A) : M A := λ w,
  (match r with inl e => Raise e | inr a => Ok a end, w).

(** ** [utils/config.py] and the file system *)

Definition path_exists (path : string) : M bool := λ w,
  (Ok (bool_decide (is_Some (files w !! path))), w).

(** [open(path).read()] *)
Definition open_read (path : string) : M string := λ w,
  match files w !! path with
  | Some (Readable content) => (Ok content, w)
  | Some Unreadable => (Raise OSError, w)
  | None => (Raise FileNotFoundError, w)
  end.

(** [ConfigLoader.__init__] *)
Definition ConfigLoader_init (dotenv_path : string) : M unit :=
  found ← path_exists dotenv_path;
  if negb found then raise FileNotFoundError else mret ().

(** [ConfigLoader.get] *)
Definition config_get (key : string) (default : pyval) : M pyval := λ w,
  (Ok (match environ w !! key with Some s => PyStr s | None => default end), w).

(** ** [outreach/__init__.py] *)

Record OutreachManager := mkOutreachManager {
  email_user : string;
  email_password : string;
  resume_path : string;
  template_path : string;
  template : option string;
  smtp_server : string;
  smtp_port : Z;
  max_threads : Z;
  max_retries : Z;
}.

(** [OutreachManager.load_template] *)
Definition load_template (template_path : string) : M (option string) :=
  try_except
    (template ← open_read template_path;
     log INFO (TemplateLoaded template_path);;
     mret (Some template))
    (λ e, match e with
          | FileNotFoundError =>
              Some (log ERROR (TemplateFileNotFound template_path);; mret None)
          | _ => Some (log ERROR (TemplateLoadError e);; mret None)
          end).

Section Program.
Context `{Runtime}.

(** [int(self.config.get(key, default))] *)
Definition config_int (key : string) (default : Z) : M Z :=
  v ← config_get key (PyInt default);
  lift (py_int v).

(** [OutreachManager.__init__]. Past the two checks [email_user],
    [email_password] and [resume_path] hold strings, on which [py_str] is the
    identity. *)
Definition OutreachManager_init : M OutreachManager :=
  email_user ← config_get "EMAIL_USER" PyNone;
  email_password ← config_get "EMAIL_PASSWORD" PyNone;
  resume_path ← config_get "RESUME_PATH" PyNone;
  template_path ← config_get "EMAIL_TEMPLATE_PATH" (PyStr "email_template.md");
  if negb (forallb truthy [email_user; email_password]) then
    raise (ValueError "EMAIL_USER and EMAIL_PASSWORD must be set in .env file.")
  else
  found ← (if truthy resume_path then path_exists (py_str resume_path) else mret false);
  if negb found then
    raise (ValueError ("RESUME_PATH is not set or file not found at '"
                         +:+ py_str resume_path +:+ "'"))
  else
  template ← load_template (py_str template_path);
  match template with
  | None =>
      raise (ValueError ("Email template could not be loaded from '"
                           +:+ py_str template_path +:+ "'."))
  | Some _ =>
      smtp_server ← config_get "SMTP_SERVER" (PyStr "smtp.gmail.com");
      smtp_port ← config_int "SMTP_PORT" 587;
      calls_per_period ← config_int "EMAIL_CALLS_PER_PERIOD" 10;
      period ← config_int "EMAIL_PERIOD" 60;
      limiter ← RateLimiter_init calls_per_period period;
      set_limiter limiter;;
      max_threads ← config_int "MAX_EMAIL_THREADS" 10;
      max_retries ← config_int "MAX_EMAIL_RETRIES" 3;
      mret (mkOutreachManager (py_str email_user) (py_str email_password)
              (py_str resume_path) (py_str template_path) template
              (py_str smtp_server) smtp_port max_threads max_retries)
  end.

(** One [with smtplib.SMTP(...) as server:] block: starttls, login,
    sendmail. *)
Definition smtp_session (from_addr to_addr : string) (msg : Message) : M unit := λ w,
  let r := relay w (sessions w) in
  (match r with Delivered => Ok () | SessionRaises e => Raise e end,
   mkWorld (clock w) (drift w) (reads w) (relay w) (S (sessions w))
           (environ w) (files w) (email_rate_limiter w)
           (EvSmtp from_addr to_addr msg r :: trace w)).

(** The three [except] clauses of the retry loop, which differ in the text
    they log only. *)
Definition failure_message (hr_email : string) (attempt : Z) (e : exn) : message :=
  match e with
  | SMTPException => SmtpError hr_email (attempt + 1) e
  | OSError | FileNotFoundError => OsError hr_email (attempt + 1) e
  | _ => UnexpectedError hr_email (attempt + 1) e
  end.

(** The loop [for attempt in range(max_retries)]; the result tells whether
    the loop was left by its [return]. *)
Fixpoint attempt_loop (self : OutreachManager) (msg : Message)
    (hr_email hr_name : string) (max_retries : Z) (attempts : list Z) : M bool :=
  match attempts with
  | [] => mret false
  | attempt :: rest =>
      sent ← try_except
        (smtp_session (email_user self) hr_email msg;;
         log INFO (SentSuccessfully hr_name hr_email (attempt + 1));;
         time_sleep 3;;
         mret true)
        (λ e, Some (log ERROR (failure_message hr_email attempt e);; mret false));
      if (sent : bool) then mret true
      else
        (if decide (attempt < max_retries - 1) then
           let sleep_time := 2 ^ attempt in
           log WARNING (Retrying sleep_time);;
           time_sleep sleep_time
         else mret ());;
        attempt_loop self msg hr_email hr_name max_retries rest
  end.

(** [OutreachManager.send_outreach_email] *)
Definition send_outreach_email (self : OutreachManager)
    (hr_email hr_name company_name : string) (max_retries_arg : option Z) : M unit :=
  let max_retries := default (max_retries self) max_retries_arg in
  wait;;
  let subject := "Seeking Assistance for Suitable Job Opportunity & Referral" in
  match template self with
  | None => log ERROR TemplateNotLoaded
  | Some template =>
      let template_vars := [("recruiter_name", hr_name); ("company_name", company_name)] in
      match str_format template template_vars with
      | inl (KeyError k) => log ERROR (TemplateMissingPlaceholder (KeyError k))
      | inl e => raise e
      | inr body =>
          part ← try_except
            (payload ← open_read (resume_path self); mret (Some payload))
            (λ e, match e with
                  | FileNotFoundError =>
                      Some (log ERROR (ResumeNotFound (resume_path self));; mret None)
                  | _ => Some (log ERROR (ResumeAttachError e);; mret None)
                  end);
          match part with
          | None => mret ()
          | Some payload =>
              let msg := mkMessage (email_user self) hr_email subject body
                           (basename (resume_path self)) payload in
              returned ← attempt_loop self msg hr_email hr_name max_retries
                           (seqZ 0 max_retries);
              if (returned : bool) then mret ()
              else log ERROR (FailedAfter hr_email max_retries)
          end
      end
  end.

(** The arguments of one [executor.submit(self.send_outreach_email, ...)]. *)
Record task := mkTask {
  task_email : string;
  task_name : string;
  task_company : string;
}.

(** Body of the [for recruiter in recruiters] loop: [Some] is the task
    handed to the pool, [None] a record that is not submitted. *)
Definition submit_one (self : OutreachManager) (recruiter : gmap string pyval)
    : M (option task) :=
  try_except
    (email ← match recruiter !! "Email" with
             | Some v => mret v
             | None => raise (KeyError "Email")
             end;
     let hr_email := py_strip (py_str email) in
     hr_name ← match py_split (py_str (default (PyStr "HR") (recruiter !! "Name"))) with
               | first :: _ => mret first
               | [] => raise IndexError
               end;
     let company_name :=
       py_strip (py_str (default (PyStr "your company") (recruiter !! "Company"))) in
     let hr_name := if truthy (PyStr hr_name) then hr_name else "HR" in
     let company_name := if truthy (PyStr company_name) then company_name
                         else "your company" in
     if negb (from_option (λ m, truthy (PyStr m)) false (_find_email (Some hr_email))) then
       log WARNING (SkippingInvalidEmail hr_email);;
       mret None
     else
       log INFO (SubmittingTask hr_email);;
       mret (Some (mkTask hr_email hr_name company_name)))
    (λ e, match e with
          | KeyError _ =>
              Some (log ERROR (SkippingMissingKey e recruiter);; mret None)
          | _ => Some (log ERROR (ErrorSubmitting (recruiter !! "Email") e);; mret None)
          end).

Fixpoint submit_all (self : OutreachManager) (recruiters : list (gmap string pyval))
    : M (list task) :=
  match recruiters with
  | [] => mret []
  | recruiter :: rest =>
      future ← submit_one self recruiter;
      futures ← submit_all self rest;
      mret (from_option (λ f, [f]) [] future ++ futures)
  end.

(** The loop over [as_completed(futures)]: each task runs to its end and an
    exception it raised is logged by the caller of [future.result()]. *)
Fixpoint join_all (self : OutreachManager) (futures : list task) : M unit :=
  match futures with
  | [] => mret ()
  | future :: rest =>
      try_except
        (send_outreach_email self (task_email future) (task_name future)
           (task_company future) None)
        (λ e, Some (log ERROR (TaskFailed e)));;
      join_all self rest
  end.

(** [OutreachManager.send_emails_concurrently]; the function has no [return]
    statement. *)
Definition send_emails_concurrently (self : OutreachManager)
    (recruiters : list (gmap string pyval)) : M pyval :=
  if decide (max_threads self ≤ 0) then
    raise (ValueError "max_workers must be greater than 0")
  else
    futures ← submit_all self recruiters;
    join_all self futures;;
    mret PyNone.

(** ** [main.py] *)

(** The namespace [parser.parse_args()] returns. *)
Record Namespace := mkNamespace {
  pdf_file_path : option string;
  csv_file_path : option string;
}.

Definition given (arg : option string) : bool :=
  from_option (λ path, truthy (PyStr path)) false arg.

(** [df.rename(columns={...})] *)
Definition rename_column (c : string) : string :=
  if decide (c = "recruiter_name") then "Name"
  else if decide (c = "company_name") then "Company"
  else if decide (c = "recruiter_email") then "Email"
  else c.

(** [df.to_dict("records")]: a later column of the same label wins. *)
Definition to_dict_records (df : frame) : list (gmap string pyval) :=
  (λ row, list_to_map (reverse (zip (columns df) row))) <$> rows df.

(** [df.empty] *)
Definition frame_empty (df : frame) : bool :=
  bool_decide (columns df = []) || bool_decide (rows df = []).

(** [main], from the parsed arguments on. *)
Definition main (args : Namespace) : M unit :=
  outreach_manager ← try_except
    (ConfigLoader_init ".env";;
     OutreachManager_init)
    (λ e, match e with
          | ValueError _ =>
              Some (log ERROR (ConfigurationError e);; sys_exit 1)
          | _ => None
          end);
  recruiters_df ←
    (if given (pdf_file_path args) then
       let path := default "" (pdf_file_path args) in
       log INFO (LoadingFromPdf path);;
       mret (load_recruiters_from_pdf path)
     else if given (csv_file_path args) then
       let path := default "" (csv_file_path args) in
       log INFO (LoadingFromCsv path);;
       match read_csv path with
       | inr df => mret (Some df)
       | inl FileNotFoundError => log ERROR (CsvNotFound path);; sys_exit 1
       | inl EmptyDataError => log ERROR (CsvEmpty path);; sys_exit 1
       | inl e => raise e
       end
     else mret None);
  match recruiters_df with
  | Some df =>
      if negb (frame_empty df) then
        let df := mkFrame (rename_column <$> columns df) (rows df) in
        try_except
          (if negb (bool_decide (["Name"; "Company"; "Email"] ⊆ columns df)) then
             log ERROR MissingColumns;;
             sys_exit 1
           else
             let recruiters := to_dict_records df in
             log INFO (LoadedRecords (length recruiters));;
             send_emails_concurrently outreach_manager recruiters;;
             mret ())
          (λ e, match e with
                | KeyError _ => Some (log ERROR (DataMissingColumn e))
                | _ => None
                end)
      else log ERROR NoRecruiterData
  | None => log ERROR NoRecruiterData
  end.

(** Exit status of the interpreter: the argument of [sys.exit], 1 for an
    exception nobody caught, 0 otherwise. *)
Definition exit_status {A} (r : result A) : Z :=
  match r with
  | Ok _ => 0
  | Raise _ => 1
  | Exit code => code
  end.

End Program.

(** ** Observations on a trace *)

(** SMTP sessions of a trace, newest first, as (recipient, outcome). *)
Definition smtp_attempts (tr : list event) : list (string * smtp_result) :=
  omap (λ ev, match ev with EvSmtp _ to_addr _ r => Some (to_addr, r) | _ => None end) tr.

(** Lengths of the sleeps of a trace, newest first. *)
Definition sleeps (tr : list event) : list Z :=
  omap (λ ev, match ev with EvSleep d => Some d | _ => None end) tr.

(** ** One behaviour of the library calls, used to run the examples

    [sample_format] replaces each [{name}] by the value of [name];
    [sample_int] reads an [int] or a run of decimal digits. *)

Fixpoint format_go (vars : list (string * string)) (field : option (list ascii))
    (s : list ascii) : exn + list ascii :=
  match s with
  | [] =>
      match field with
      | None => inr []
      | Some _ => inl (ValueError "expected '}' before end of string")
      end
  | c :: s' =>
      match field with
      | None =>
          if decide (c = "{"%char) then format_go vars (Some []) s'
          else match format_go vars None s' with
               | inr out => inr (c :: out)
               | inl e => inl e
               end
      | Some name =>
          if decide (c = "}"%char) then
            let key := string_of_list_ascii (reverse name) in
            match list_find (λ kv, kv.1 = key) vars with
            | Some (_, (_, v)) =>
                match format_go vars None s' with
                | inr out => inr (list_ascii_of_string v ++ out)
                | inl e => inl e
                end
            | None => inl (KeyError key)
            end
          else format_go vars (Some (c :: name)) s'
      end
  end.

Definition sample_format (template : string) (vars : list (string * string))
    : exn + string :=
  match format_go vars None (list_ascii_of_string template) with
  | inr out => inr (string_of_list_ascii out)
  | inl e => inl e
  end.

Definition digit (c : ascii) : option Z :=
  if in_range "0" "9" c then Some (Z.of_N (code c) - 48) else None.

Definition sample_int (v : pyval) : exn + Z :=
  match v with
  | PyInt z => inr z
  | PyStr s =>
      match mapM digit (list_ascii_of_string s) with
      | Some (d :: ds) => inr (foldl (λ acc x, 10 * acc + x) 0 (d :: ds))
      | _ => inl (ValueError "invalid literal for int()")
      end
  | _ => inl OtherError
  end.

Definition sample_runtime : Runtime := {|
  str_format := sample_format;
  py_int := sample_int;
  read_csv := λ _, inl FileNotFoundError;
  load_recruiters_from_pdf := λ _, None;
|}.

(** A configured installation: credentials, attachment and template. *)
Definition office_environ : gmap string string :=
  {[ "EMAIL_USER" := "me@example.org";
     "EMAIL_PASSWORD" := "secret";
     "RESUME_PATH" := "docs/resume.pdf" ]}.

Definition office_files : gmap string file :=
  {[ ".env" := Readable "";
     "docs/resume.pdf" := Readable "%PDF";
     "email_template.md" := Readable "Dear {recruiter_name} of {company_name}" ]}.

(** The manager object that [__init__] would build for that installation. *)
Definition office_manager : OutreachManager :=
  mkOutreachManager "me@example.org" "secret" "docs/resume.pdf" "email_template.md"
    (Some "Dear {recruiter_name} of {company_name}") "smtp.gmail.com" 587 10 3.

(** That installation at start, with a limiter of ten calls per sixty units
    and the relay behaving as [relay]. *)
Definition office (relay : nat → smtp_result) : World :=
  boot 0 (λ _, 0) relay office_environ office_files (RateLimiter_fields 10 60).

(** Records of a batch, as [to_dict] hands them over. *)
Definition jane_doe : gmap string pyval :=
  {[ "Name" := PyStr "Jane Doe"; "Company" := PyStr "Acme";
     "Email" := PyStr "jane@acme.com" ]}.

Definition blank_name : gmap string pyval :=
  {[ "Name" := PyStr ""; "Company" := PyStr "Acme";
     "Email" := PyStr "jane@acme.com" ]}.

Definition no_name : gmap string pyval :=
  {[ "Company" := PyStr "Acme"; "Email" := PyStr "jane@acme.com" ]}.

Definition bad_address : gmap string pyval :=
  {[ "Name" := PyStr "Bob"; "Company" := PyStr ""; "Email" := PyStr "not-an-email" ]}.

Definition address_in_text : gmap string pyval :=
  {[ "Name" := PyStr "Jane Doe"; "Company" := PyStr "Acme";
     "Email" := PyStr " Contact: jane@acme.com (HR) " ]}.

(** ** Properties stated about the rate limiter *)

(** Granted timestamps, newest first: each one is no earlier than those
    before it and has fewer than [K] of them within the [P] before it. *)
Fixpoint well_spaced (K P : Z) (G : list Z) : Prop :=
  match G with
  | [] => True
  | g :: rest =>
      Forall (λ t, t ≤ g) rest
      ∧ Z.of_nat (length (filter (λ t, g - P < t) rest)) < K
      ∧ well_spaced K P rest
  end.

(** What the limiter object and the trace agree on between two calls. *)
Record limiter_inv (w : World) : Prop := {
  inv_calls : 1 ≤ calls_per_period (email_rate_limiter w);
  inv_period : 1 ≤ period (email_rate_limiter w);
  inv_drift : ∀ n, 0 ≤ drift w n;
  inv_past : Forall (λ t, t ≤ clock w) (granted (trace w));
  inv_kept : ∀ x, clock w ≤ x →
    filter (λ t, x - period (email_rate_limiter w) < t)
           (timestamps (email_rate_limiter w))
    = filter (λ t, x - period (email_rate_limiter w) < t)
             (reverse (granted (trace w)));
  inv_spaced : well_spaced (calls_per_period (email_rate_limiter w))
                 (period (email_rate_limiter w)) (granted (trace w));
}.


(** ** Start-up defects *)

(** The sender credentials are not both set to a non-empty value. *)
Definition credentials_missing (w : World) : Prop :=
  ¬ ∃ user password,
      environ w !! "EMAIL_USER" = Some user ∧ user ≠ ""
      ∧ environ w !! "EMAIL_PASSWORD" = Some password ∧ password ≠ "".

(** The attachment path is unset, empty, or names nothing on disk. *)
Definition attachment_missing (w : World) : Prop :=
  ∀ path, environ w !! "RESUME_PATH" = Some path → path = "" ∨ files w !! path = None.

(** The template path (default [email_template.md]) has no readable file. *)
Definition template_unloadable (w : World) : Prop :=
  ∀ content,
    files w !! default "email_template.md" (environ w !! "EMAIL_TEMPLATE_PATH")
    ≠ Some (Readable content).

(** ** Frames and traces of a send *)

(** What a piece of code leaves untouched: the oracles, the file system and
    the two constants of the limiter. *)
Definition same_setting (w w' : World) : Prop :=
  drift w' = drift w ∧ relay w' = relay w ∧ environ w' = environ w
  ∧ files w' = files w
  ∧ calls_per_period (email_rate_limiter w') = calls_per_period (email_rate_limiter w)
  ∧ period (email_rate_limiter w') = period (email_rate_limiter w).


(** The events of a send whose three sessions all fail, oldest first; [e0],
    [e1], [e2] are the exceptions of the sessions. *)
Definition exhausted_events (sender hr_email : string) (msg : Message)
    (e0 e1 e2 : exn) : list event :=
  [ EvSmtp sender hr_email msg (SessionRaises e0);
    EvLog ERROR (failure_message hr_email 0 e0);
    EvLog WARNING (Retrying (2 ^ 0));
    EvSleep (2 ^ 0);
    EvSmtp sender hr_email msg (SessionRaises e1);
    EvLog ERROR (failure_message hr_email 1 e1);
    EvLog WARNING (Retrying (2 ^ 1));
    EvSleep (2 ^ 1);
    EvSmtp sender hr_email msg (SessionRaises e2);
    EvLog ERROR (failure_message hr_email 2 e2);
    EvLog ERROR (FailedAfter hr_email 3) ].

(** ** Properties stated about the dispatcher *)

(** The world after the events [t], newest first, have been recorded. *)
Definition logged (w : World) (t : list event) : World :=
  mkWorld (clock w) (drift w) (reads w) (relay w) (sessions w)
          (environ w) (files w) (email_rate_limiter w) (t ++ trace w).

(** The words a pattern matches in full. *)
Fixpoint matches (p : list atom) (u : list ascii) : Prop :=
  match p with
  | [] => u = []
  | Lit c :: p' => ∃ v, u = c :: v ∧ matches p' v
  | Rep cls least :: p' =>
      ∃ r v, u = r ++ v ∧ Forall (λ x, cls x = true) r
             ∧ (least ≤ length r)%nat ∧ matches p' v
  end.

(** An address as the pattern describes it: local part, [@], domain, a dot
    and at least two letters. *)
Definition address_shaped (addr : string) : Prop :=
  ∃ l d t : list ascii,
    list_ascii_of_string addr = l ++ "@"%char :: d ++ "."%char :: t
    ∧ l ≠ [] ∧ Forall (λ x, local_char x = true) l
    ∧ d ≠ [] ∧ Forall (λ x, domain_char x = true) d
    ∧ (2 ≤ length t)%nat ∧ Forall (λ x, alpha x = true) t.

(** The spec's summary value: an object with the four attributes, the first
    three numbers with [total_submitted = succeeded + failed]. *)
Definition is_batch_summary (v : pyval) : Prop :=
  ∃ total_submitted succeeded failed failures,
    getattr v "total_submitted" = Some (PyInt total_submitted)
    ∧ getattr v "succeeded" = Some (PyInt succeeded)
    ∧ getattr v "failed" = Some (PyInt failed)
    ∧ getattr v "failures" = Some failures
    ∧ total_submitted = succeeded + failed.

(** A world in which nothing has happened yet. *)
Definition blank : World :=
  boot 0 (λ _, 0) (λ _, Delivered) ∅ ∅ (RateLimiter_fields 1 1).

(** The task, if any, that the loop body submits for a record, and the log
    record it writes; read off a run in the blank world. *)
Definition triage (self : OutreachManager) (r : gmap string pyval) : option task :=
  match (submit_one self r blank).1 with
  | Ok fut => fut
  | _ => None
  end.

Definition triage_log (self : OutreachManager) (r : gmap string pyval) : list event :=
  trace (submit_one self r blank).2.

(** ** Further functions of [outreach/__init__.py] *)

(** [sep.join(parts)] *)
Fixpoint py_join (sep : string) (parts : list string) : string :=
  match parts with
  | [] => ""
  | part :: rest =>
      match rest with
      | [] => part
      | _ => part +:+ sep +:+ py_join sep rest
      end
  end.

(** [OutreachManager._clean_text] *)
Definition _clean_text (text : option string) : string :=
  match text with
  | None => ""
  | Some text => py_strip (py_join " " (py_split text))
  end.

(** [OutreachManager.load_recruiters_from_pdf]. The function touches neither
    the clock nor the relay; its effects are its log lines and the CSV file
    it writes, both threaded explicitly. pdfplumber and the CSV writer of
    pandas are taken as given. *)
Module Loader.

(** A table as [page.extract_table()] returns it: rows of cells, a cell
    being a text or [None]. *)
Definition table : Type := list (list (option string)).

(** What [page.extract_table()] does on one page: it raises, or returns
    [None] or a table. *)
Definition page : Type := exn + option table.

Class Pdf := {
  (* pdfplumber.open(file_path).pages, or the exception of the open *)
  pdf_open : string → exn + list page;
  (* the text df.to_csv(path, index=False) writes, or its exception *)
  to_csv : frame → exn + string;
}.

(** The log calls of the function, with the values they interpolate; pages
    are numbered from 1 as in the messages. *)
Inductive loader_message :=
| NoTableFound (page_no : nat)
| IncorrectColumnCount (page_no : nat) (row : list (option string))
| NoValidEmail (page_no : nat) (row : list (option string))
| PageError (page_no : nat) (e : exn)
| NoValidData
| SavedTo (path : string)
| PdfFileNotFound (e : exn)
| UnexpectedError (e : exn).

(** [processed_data] and the log so far, newest line first. *)
Record loading := mkLoading {
  processed_data : list (gmap string pyval);
  lines : list (level * loader_message);
}.

Definition say (lvl : level) (m : loader_message) (st : loading) : loading :=
  mkLoading (processed_data st) ((lvl, m) :: lines st).

(** [row[i]] for an index within the row. *)
Definition cell (row : list (option string)) (i : nat) : option string :=
  default None (row !! i).

(** [str(cell)] *)
Definition cell_str (c : option string) : string :=
  py_str (from_option PyStr PyNone c).

(** Body of [for row in table]. *)
Definition process_row (i : nat) (row : list (option string)) (st : loading) : loading :=
  if decide (length row ≠ 5%nat) then say WARNING (IncorrectColumnCount (i + 1) row) st
  else
    let name := _clean_text (cell row 1) in
    let email_block := cell_str (cell row 2) in
    let company := _clean_text (cell row 4) in
    let email := _find_email (Some email_block) in
    match email with
    | Some email =>
        if truthy (PyStr email) then
          mkLoading
            (processed_data st
               ++ [ {[ "Name" := PyStr name; "Email" := PyStr email;
                       "Company" := PyStr company ]} ])
            (lines st)
        else say WARNING (NoValidEmail (i + 1) row) st
    | None => say WARNING (NoValidEmail (i + 1) row) st
    end.

Definition process_rows (i : nat) (rows : table) (st : loading) : loading :=
  foldl (λ st row, process_row i row st) st rows.

(** Body of [for i, page in enumerate(pdf.pages)], with its [try]. *)
Definition process_page (i : nat) (p : page) (st : loading) : loading :=
  match p with
  | inl e => say ERROR (PageError (i + 1) e) st
  | inr None | inr (Some []) => say WARNING (NoTableFound (i + 1)) st
  | inr (Some rows) =>
      let rows := if decide (0 < i)%nat then drop 1 rows else rows in
      process_rows i rows st
  end.

Fixpoint process_pages (i : nat) (pages : list page) (st : loading) : loading :=
  match pages with
  | [] => st
  | p :: rest => process_pages (S i) rest (process_page i p st)
  end.

(** [pd.DataFrame(processed_data)] for dictionaries with the keys Name,
    Email and Company in that order. *)
Definition DataFrame (records : list (gmap string pyval)) : frame :=
  let columns := ["Name"; "Email"; "Company"] in
  mkFrame columns ((λ r, (λ c, default PyNaN (r !! c)) <$> columns) <$> records).

(** What a call leaves behind. *)
Record loaded := mkLoaded {
  returned : option frame;
  log_lines : list (level * loader_message);
  files_after : gmap string file;
}.

(** The two outer [except] clauses. *)
Definition load_failed (e : exn) : level * loader_message :=
  match e with
  | FileNotFoundError => (ERROR, PdfFileNotFound e)
  | _ => (ERROR, UnexpectedError e)
  end.

Definition load_recruiters_from_pdf `{Pdf} (file_path : string)
    (files : gmap string file) : loaded :=
  match pdf_open file_path with
  | inl e => mkLoaded None [load_failed e] files
  | inr pages =>
      let st := process_pages 0 pages (mkLoading [] []) in
      match processed_data st with
      | [] => mkLoaded None ((ERROR, NoValidData) :: lines st) files
      | _ =>
          let df := DataFrame (processed_data st) in
          let output_csv := "recruiters_list.csv" in
          match to_csv df with
          | inl e => mkLoaded None (load_failed e :: lines st) files
          | inr text =>
              mkLoaded (Some df) ((INFO, SavedTo output_csv) :: lines st)
                (<[output_csv := Readable text]> files)
          end
      end
  end.

(** The record a table row stands for, if any: a row of five cells whose
    third cell contains an address. *)
Definition row_record (row : list (option string)) : option (gmap string pyval) :=
  if decide (length row = 5%nat) then
    (λ email, {[ "Name" := PyStr (_clean_text (cell row 1));
                 "Email" := PyStr email;
                 "Company" := PyStr (_clean_text (cell row 4)) ]})
      <$> _find_email (Some (cell_str (cell row 2)))
  else None.

(** The rows of page [i] (from 0) that are looked at. *)
Definition page_rows (i : nat) (p : page) : table :=
  match p with
  | inr (Some rows) => if decide (0 < i)%nat then drop 1 rows else rows
  | _ => []
  end.

End Loader.

(** ** [utils/logger.py]

    The registry of the [logging] module as far as [Logger.__init__] uses
    it: [getLogger] hands out one logger object per name. *)
Module Logging.

Record Handler := mkHandler {
  handler_level : Z;
  handler_format : string;
}.

Record PyLogger := mkPyLogger {
  logger_level : Z;
  handlers : list Handler;
}.

(** [logging.getLogger(name)]: the logger of that name, created with level
    NOTSET and without handlers when it does not exist yet. *)
Definition getLogger (name : string) (reg : gmap string PyLogger)
    : PyLogger * gmap string PyLogger :=
  match reg !! name with
  | Some l => (l, reg)
  | None => let l := mkPyLogger 0 [] in (l, <[name := l]> reg)
  end.

(** [logging.INFO] *)
Definition LEVEL_INFO : Z := 20.

(** [Logger.__init__], on the registry. *)
Definition Logger_init (name : string) (level : Z) (reg : gmap string PyLogger)
    : gmap string PyLogger :=
  let '(l, reg) := getLogger name reg in
  let l := mkPyLogger level (handlers l) in
  let l :=
    match handlers l with
    | [] =>
        let ch := mkHandler level "%(asctime)s - %(name)s - %(levelname)s - %(message)s" in
        mkPyLogger (logger_level l) (handlers l ++ [ch])
    | _ => l
    end in
  <[name := l]> reg.

(** Several instantiations, one after the other. *)
Definition Logger_inits (calls : list (string * Z)) (reg : gmap string PyLogger)
    : gmap string PyLogger :=
  foldl (λ reg call, Logger_init call.1 call.2 reg) reg calls.



End Logging.

(** ** Properties stated about further behaviour *)

(** The message for [hr_name] and [company_name] can be composed: the
    template is loaded and formats, and the attachment can be read. *)
Definition composes `{Runtime} (self : OutreachManager)
    (hr_name company_name : string) (w : World) : Prop :=
  ∃ text body payload,
    template self = Some text
    ∧ str_format text [("recruiter_name", hr_name); ("company_name", company_name)]
      = inr body
    ∧ files w !! resume_path self = Some (Readable payload).

(** The company handed to a task: the stripped field, or the placeholder
    when the field is missing or blank. *)
Definition company_of (r : gmap string pyval) : string :=
  let c := py_strip (py_str (default (PyStr "your company") (r !! "Company"))) in
  if decide (c = "") then "your company" else c.

(** A run of characters without whitespace. *)
Definition clean (s : list ascii) : Prop := Forall (λ c, is_space c = false) s.

(** Tokens separated by single spaces, as characters. *)
Fixpoint spaced_out (tokens : list (list ascii)) : list ascii :=
  match tokens with
  | [] => []
  | token :: rest =>
      match rest with
      | [] => token
      | _ => token ++ " "%char :: spaced_out rest
      end
  end.

(** Credentials, attachment and template are all in place, and [.env]
    exists: none of the start-up checks fails. *)
Definition installation_complete (w : World) : Prop :=
  is_Some (files w !! ".env")
  ∧ (∃ user password,
       environ w !! "EMAIL_USER" = Some user ∧ user ≠ ""
       ∧ environ w !! "EMAIL_PASSWORD" = Some password ∧ password ≠ "")
  ∧ (∃ path, environ w !! "RESUME_PATH" = Some path ∧ path ≠ ""
             ∧ is_Some (files w !! path))
  ∧ ∃ text,
      files w !! default "email_template.md" (environ w !! "EMAIL_TEMPLATE_PATH")
      = Some (Readable text).

(** A two-page document and a plain CSV writer, to run the loader on. *)
Definition sample_pages : list Loader.page :=
  [ inr (Some [ [Some "No"; Some "Name"; Some "Email"; Some "Title"; Some "Company"];
                [Some "1"; Some "Jane   Doe"; Some "jane@acme.com  Head of Talent"; None; Some " Acme  Corp "];
                [Some "2"; Some "Bob"; Some "no address"; None; Some "Initech"] ]);
    inl OtherError;
    inr (Some [ [Some "No"; Some "Name"; Some "Email"; Some "Title"; Some "Company"];
                [Some "3"; None; Some "hr@initech.io"; None; None];
                [Some "4"; Some "short row"] ]) ].

Definition sample_to_csv (df : frame) : exn + string :=
  let lines := columns df :: fmap (M := list) (fmap (M := list) py_str) (rows df) in
  inr (py_join ";" (fmap (M := list) (py_join ",") lines)).

Definition sample_pdf : Loader.Pdf := {|
  Loader.pdf_open := λ path,
    if decide (path = "recruiters.pdf") then inr sample_pages else inl FileNotFoundError;
  Loader.to_csv := sample_to_csv;
|}.

(** * Theorems *)

(** * The rate limiter *)

Section window.
Implicit Types (G l : list Z) (K P T x : Z).
Lemma filter_length_mono (Q1 Q2 : Z → Prop)
    `{!∀ t, Decision (Q1 t), !∀ t, Decision (Q2 t)} l :
  Forall (λ t, Q1 t → Q2 t) l →
  (length (filter Q1 l) ≤ length (filter Q2 l))%nat.
Proof.
  induction 1 as [|t l Ht _ IH]; [done|].
  rewrite !filter_cons.
  destruct (decide (Q1 t)), (decide (Q2 t)); simpl; try lia. tauto.
Qed.

Lemma filter_none (Q : Z → Prop) `{!∀ t, Decision (Q t)} l :
  Forall (λ t, ¬ Q t) l → filter Q l = [].
Proof.
  induction 1 as [|t l Ht _ IH]; [done|].
  by rewrite filter_cons_False.
Qed.

Lemma filter_agree (Q1 Q2 : Z → Prop)
    `{!∀ t, Decision (Q1 t), !∀ t, Decision (Q2 t)} l :
  Forall (λ t, Q1 t ↔ Q2 t) l → filter Q1 l = filter Q2 l.
Proof.
  induction 1 as [|t l Ht _ IH]; [done|].
  rewrite !filter_cons, IH.
  destruct (decide (Q1 t)), (decide (Q2 t)); tauto.
Qed.

(** No window of length [P] holds more than [K] well spaced timestamps. *)
Lemma well_spaced_window K P G T :
  0 ≤ K → well_spaced K P G →
  Z.of_nat (length (filter (λ t, T - P < t ∧ t ≤ T) G)) ≤ K.
Proof.
  intros HK. induction G as [|g rest IH]; simpl; [lia|].
  intros (Hle & Hcount & Hrest). rewrite filter_cons.
  destruct (decide (T - P < g ∧ g ≤ T)) as [[Hlo Hhi]|Hout]; simpl.
  - pose proof (filter_length_mono (λ t, T - P < t ∧ t ≤ T) (λ t, g - P < t) rest)
      as Hsub.
    rewrite Forall_forall in Hsub. lapply Hsub; [lia|]. intros t _ [? _]. lia.
  - destruct (decide (g ≤ T)); [|by apply IH].
    rewrite filter_none; [simpl; lia|].
    eapply Forall_impl; [exact Hle|]. simpl. lia.
Qed.

End window.

Lemma boot_inv t0 dr rl env fs cpp p :
  (∀ n, 0 ≤ dr n) → limiter_inv (boot t0 dr rl env fs (RateLimiter_fields cpp p)).
Proof. intros Hdr. split; simpl; auto; lia. Qed.

(** Entries of the stored list still inside the window at time [x]. *)
Lemma inv_live w x :
  limiter_inv w → clock w ≤ x →
  Z.of_nat (length (filter (λ t, x - period (email_rate_limiter w) < t)
                      (timestamps (email_rate_limiter w))))
  ≤ calls_per_period (email_rate_limiter w).
Proof.
  intros Hinv Hx. rewrite (inv_kept _ Hinv x Hx), filter_reverse, length_reverse.
  rewrite (filter_agree _ (λ t, x - period (email_rate_limiter w) < t ∧ t ≤ x)).
  - apply well_spaced_window; [|apply Hinv]. pose proof (inv_calls _ Hinv). lia.
  - eapply Forall_impl; [apply (inv_past _ Hinv)|]. simpl. lia.
Qed.

Lemma filter_later P (x y : Z) (l : list Z) :
  y ≤ x →
  filter (λ t, x - P < t) (filter (λ t, y - P < t) l) = filter (λ t, x - P < t) l.
Proof.
  intros Hxy. rewrite list_filter_filter. apply list_filter_iff. intros t. lia.
Qed.

(** Appending a grant [c'] to the pruned list re-establishes the invariant,
    provided fewer than [K] stored entries are within [P] of [c']. *)
Lemma inv_grant c dr rd rl ss env fs K P ts tr c' rd' kept tr' :
  limiter_inv (mkWorld c dr rd rl ss env fs (mkRateLimiter K P ts) tr) →
  c ≤ c' →
  granted tr' = c' :: granted tr →
  (∀ x, c' ≤ x → filter (λ t, x - P < t) kept = filter (λ t, x - P < t) ts) →
  Z.of_nat (length (filter (λ t, c' - P < t) ts)) < K →
  limiter_inv (mkWorld c' dr rd' rl ss env fs (mkRateLimiter K P (kept ++ [c'])) tr').
Proof.
  intros Hinv Hc Hgr Hkept Hcount.
  pose proof (inv_past _ Hinv) as Hpast. pose proof (inv_kept _ Hinv) as Hk.
  simpl in Hpast, Hk.
  assert (Forall (λ t, t ≤ c') (granted tr)) as Hpast'.
  { eapply Forall_impl; [exact Hpast|]. simpl. lia. }
  split; simpl; rewrite ?Hgr.
  - apply (inv_calls _ Hinv).
  - apply (inv_period _ Hinv).
  - apply (inv_drift _ Hinv).
  - by constructor.
  - intros x Hx. rewrite reverse_cons, !filter_app, Hkept by done.
    rewrite Hk by lia. done.
  - split; [done|]. split; [|apply (inv_spaced _ Hinv)].
    rewrite <- length_reverse, <- filter_reverse, <- Hk by done. done.
Qed.

(** One call of [wait] from a state that satisfies the invariant. *)
Lemma wait_step w :
  limiter_inv w →
  ∃ w', wait w = (Ok (), w') ∧ limiter_inv w'
    ∧ drift w' = drift w
    ∧ calls_per_period (email_rate_limiter w') = calls_per_period (email_rate_limiter w)
    ∧ period (email_rate_limiter w') = period (email_rate_limiter w)
    ∧ Z.of_nat (length (timestamps (email_rate_limiter w')))
      ≤ calls_per_period (email_rate_limiter w) + 1
    ∧ ∃ quiet, granted quiet = [] ∧ trace w' = EvAcquire (clock w') :: quiet ++ trace w.
Proof.
  intros Hinv. destruct w as [c dr rd rl ss env fs [K P ts] tr].
  pose proof (inv_drift _ Hinv) as Hdr. pose proof (inv_calls _ Hinv) as HK.
  simpl in Hdr, HK.
  pose proof (inv_live _ (c + dr rd) Hinv) as Hlive. simpl in Hlive.
  lapply Hlive; [clear Hlive; intros Hlive|specialize (Hdr rd); lia].
  unfold wait, set_timestamps, mbind, M_bind, time_time, get_limiter,
    set_limiter, log, emit, time_sleep, mret, M_ret. simpl.
  set (now := c + dr rd) in *.
  destruct (decide (K ≤ _)) as [Hfull|Hroom].
  - destruct (filter (λ t, now - P < t) ts) as [|first kept'] eqn:Hkept;
      [simpl in Hfull; lia|].
    assert (now - P < first) as Hfirst.
    { assert (first ∈ filter (λ t, now - P < t) ts) as Hin
        by (rewrite Hkept; apply list_elem_of_here).
      by apply list_elem_of_filter in Hin as [? _]. }
    rewrite decide_True by lia. rewrite decide_False by lia. simpl.
    eexists. split; [reflexivity|]. simpl.
    split; [|do 3 (split; [done|]); split].
    + eapply (inv_grant _ _ _ _ _ _ _ _ _ _ _ _ _ (first :: kept'));
        [exact Hinv| | done | |].
      * pose proof (Hdr rd). pose proof (Hdr (S rd)). lia.
      * intros x Hx. rewrite <- Hkept. apply filter_later.
        pose proof (Hdr (S rd)). lia.
      * rewrite <- (filter_later P _ now) by (pose proof (Hdr (S rd)); lia).
        rewrite Hkept, filter_cons_False by (pose proof (Hdr (S rd)); lia).
        pose proof (length_filter (λ t, now + (P - (now - first)) + dr (S rd) - P < t)
                      kept') as Hle.
        simpl in Hlive. lia.
    + rewrite length_app. simpl in *. lia.
    + eexists [_; _]. split; [|reflexivity]. reflexivity.
  - simpl. eexists. split; [reflexivity|]. simpl.
    split; [|do 3 (split; [done|]); split].
    + eapply inv_grant; [exact Hinv| | done | |].
      * pose proof (Hdr rd). lia.
      * intros x Hx. by apply filter_later.
      * lia.
    + rewrite length_app. simpl. lia.
    + exists []. split; reflexivity.
Qed.

Lemma granted_app tr1 tr2 : granted (tr1 ++ tr2) = granted tr1 ++ granted tr2.
Proof. apply omap_app. Qed.







(** * Start-up *)

Section startup.
Context `{Runtime}.

Lemma RateLimiter_init_run cpp p w :
  RateLimiter_init cpp p w = (Raise (NameError "logging"), w).
Proof. reflexivity. Qed.

(** Start-up adds no SMTP session, whatever its outcome. *)
Lemma OutreachManager_init_run w :
  ∃ e w', OutreachManager_init w = (Raise e, w')
    ∧ sessions w' = sessions w
    ∧ smtp_attempts (trace w') = smtp_attempts (trace w).
Proof.
  unfold OutreachManager_init, config_int, config_get, load_template, try_except,
    open_read, path_exists, lift, raise, log, emit, mbind, M_bind, mret, M_ret.
  simpl.
  repeat (case_match; simplify_eq/=; eauto 10).
Qed.

Lemma truthy_str s : truthy (PyStr s) = true ↔ s ≠ "".
Proof.
  simpl. destruct (String.eqb_spec s ""); simpl; split; congruence.
Qed.

(** Each of the three defects makes the constructor raise [ValueError]. *)
Lemma OutreachManager_init_defect w :
  credentials_missing w ∨ attachment_missing w ∨ template_unloadable w →
  ∃ msg w', OutreachManager_init w = (Raise (ValueError msg), w')
    ∧ sessions w' = sessions w
    ∧ smtp_attempts (trace w') = smtp_attempts (trace w).
Proof.
  intros Hdefect.
  unfold OutreachManager_init, config_get, mbind, M_bind, mret, M_ret, raise.
  simpl.
  destruct (environ w !! "EMAIL_USER") as [user|] eqn:Huser; simpl; [|eauto 10].
  destruct (String.eqb_spec user ""); simpl; [eauto 10|].
  destruct (environ w !! "EMAIL_PASSWORD") as [password|] eqn:Hpw; simpl; [|eauto 10].
  destruct (String.eqb_spec password ""); simpl; [eauto 10|].
  destruct Hdefect as [Hcred|Hrest]; [destruct Hcred; eauto 10|].
  destruct (environ w !! "RESUME_PATH") as [path|] eqn:Hpath; simpl; [|eauto 10].
  destruct (String.eqb_spec path ""); simpl; [eauto 10|].
  unfold path_exists. simpl.
  destruct (files w !! path) as [f|] eqn:Hfile; simpl.
  2:{ eauto 10. }
  destruct Hrest as [Hatt|Htpl].
  { destruct (Hatt path Hpath); congruence. }
  unfold template_unloadable in Htpl.
  unfold load_template, try_except, open_read, log, emit, mbind, M_bind, mret, M_ret.
  simpl.
  destruct (environ w !! "EMAIL_TEMPLATE_PATH") as [tp|]; simpl in *;
    (destruct (files w !! _) as [[content|]|] eqn:Htp; simpl;
     [by destruct (Htpl content)|eauto 10|eauto 10]).
Qed.

Lemma main_defect (args : Namespace) w :
  credentials_missing w ∨ attachment_missing w ∨ template_unloadable w →
  ∃ r w', main args w = (r, w') ∧ exit_status r = 1
    ∧ sessions w' = sessions w
    ∧ smtp_attempts (trace w') = smtp_attempts (trace w)
    ∧ (files w !! ".env" = None ∧ r = Raise FileNotFoundError
       ∨ r = Exit 1
         ∧ ∃ msg, head (trace w') = Some (EvLog ERROR (ConfigurationError (ValueError msg)))).
Proof.
  intros Hdefect.
  destruct (OutreachManager_init_defect w Hdefect) as (msg & w1 & Hinit & Hs & Htr).
  unfold main, try_except, ConfigLoader_init, path_exists, mbind, M_bind. simpl.
  destruct (files w !! ".env") as [f|] eqn:Henv.
  - rewrite bool_decide_eq_true_2 by eauto. simpl. rewrite Hinit. simpl.
    do 2 eexists. split; [reflexivity|]. simpl. do 3 (split; [done|]).
    right. eauto.
  - rewrite bool_decide_eq_false_2 by (by intros [? ?]). simpl.
    do 2 eexists. split; [reflexivity|]. simpl. do 3 (split; [done|]).
    by left.
Qed.

End startup.

(** C1: [RateLimiter.__init__] raises [NameError] for the unbound name
    [logging] whatever its two arguments, and so [OutreachManager.__init__]
    ends in an exception in every world and under every behaviour of the
    library calls. *)
Theorem constructors_never_return `{Runtime} (cpp p : Z) (w : World) :
  RateLimiter_init cpp p w = (Raise (NameError "logging"), w)
  ∧ ∃ e w', OutreachManager_init w = (Raise e, w').
Proof.
  split; [reflexivity|].
  destruct (OutreachManager_init_run w) as (e & w' & Hrun & _). eauto.
Qed.

(** With credentials, attachment and template all in place the constructor
    gets as far as the rate limiter and fails there; [main] does not catch
    the [NameError]. *)
Example office_startup :
  let w := boot 0 (λ _, 0) (λ _, Delivered) office_environ office_files
             (RateLimiter_fields 1 1) in
  (∃ w', OutreachManager_init (H := sample_runtime) w = (Raise (NameError "logging"), w')
         ∧ trace w' = [EvLog INFO (TemplateLoaded "email_template.md")])
  ∧ (main (H := sample_runtime) (mkNamespace None (Some "recruiters.csv")) w).1
    = Raise (NameError "logging").
Proof. vm_compute. eauto. Qed.

(** C9: when the credentials are missing, the attachment path is unset or
    names no file, or the template cannot be loaded, the constructor raises
    [ValueError], [main] ends with exit status 1, and no SMTP session has
    been opened. *)
Theorem startup_defect_aborts `{Runtime} (args : Namespace) (w : World) :
  credentials_missing w ∨ attachment_missing w ∨ template_unloadable w →
  (∃ msg w1, OutreachManager_init w = (Raise (ValueError msg), w1))
  ∧ ∃ r w', main args w = (r, w') ∧ exit_status r = 1
      ∧ sessions w' = sessions w
      ∧ smtp_attempts (trace w') = smtp_attempts (trace w)
      ∧ (files w !! ".env" = None ∧ r = Raise FileNotFoundError
         ∨ r = Exit 1
           ∧ ∃ msg, head (trace w')
                    = Some (EvLog ERROR (ConfigurationError (ValueError msg)))).
Proof.
  intros Hdefect. split.
  - destruct (OutreachManager_init_defect w Hdefect) as (msg & w1 & Hinit & _). eauto.
  - by apply main_defect.
Qed.

Lemma startup_defect_aborts_witness :
  let w := boot 0 (λ _, 0) (λ _, Delivered) ∅ office_files (RateLimiter_fields 1 1) in
  credentials_missing w
  ∧ ∃ r w', main (H := sample_runtime) (mkNamespace (Some "list.pdf") None) w = (r, w')
      ∧ exit_status r = 1.
Proof.
  assert (credentials_missing
            (boot 0 (λ _, 0) (λ _, Delivered) ∅ office_files (RateLimiter_fields 1 1)))
    as Hmissing.
  { intros (user & password & Huser & _). simpl in Huser.
    rewrite lookup_empty in Huser. discriminate. }
  split; [exact Hmissing|].
  destruct (startup_defect_aborts (H := sample_runtime) (mkNamespace (Some "list.pdf") None)
              _ (or_introl Hmissing)) as (_ & r & w' & Hrun & Hexit & _).
  eauto.
Defined.

(** * Sending one message *)

Lemma smtp_attempts_app tr1 tr2 :
  smtp_attempts (tr1 ++ tr2) = smtp_attempts tr1 ++ smtp_attempts tr2.
Proof. apply omap_app. Qed.

Lemma same_setting_refl w : same_setting w w.
Proof. by repeat split. Qed.

Lemma same_setting_trans w1 w2 w3 :
  same_setting w1 w2 → same_setting w2 w3 → same_setting w1 w3.
Proof. unfold same_setting. intros (?&?&?&?&?&?) (?&?&?&?&?&?). repeat split; congruence. Qed.

(** [wait] opens no SMTP session; it returns after one grant, unless the
    limiter allows no call at all and its stored list is empty. *)
Lemma wait_shape w :
  ∃ r w' t, wait w = (r, w') ∧ same_setting w w'
    ∧ sessions w' = sessions w
    ∧ trace w' = t ++ trace w ∧ smtp_attempts t = []
    ∧ (r = Ok () ∧ (∃ quiet, t = EvAcquire (clock w') :: quiet ∧ granted quiet = [])
       ∨ r = Raise IndexError ∧ granted t = []
         ∧ calls_per_period (email_rate_limiter w) ≤ 0).
Proof.
  destruct w as [c dr rd rl ss env fs [K P ts] tr].
  unfold wait, set_timestamps, mbind, M_bind, time_time, get_limiter,
    set_limiter, log, emit, time_sleep, mret, M_ret, raise, same_setting. simpl.
  set (now := c + dr rd).
  destruct (decide (K ≤ _)) as [Hfull|Hroom].
  - destruct (filter (λ t, now - P < t) ts) as [|first kept'] eqn:Hkept.
    + simpl in Hfull. do 2 eexists. exists []. split; [reflexivity|]. simpl.
      do 4 (split; [done|]). right. by repeat split.
    + destruct (decide (0 < P - (now - first))).
      * rewrite decide_False by lia. simpl.
        do 2 eexists. eexists [_; _; _]. split; [reflexivity|]. simpl.
        do 4 (split; [done|]). left. split; [done|]. by eexists [_; _].
      * simpl. do 2 eexists. eexists [_]. split; [reflexivity|]. simpl.
        do 4 (split; [done|]). left. split; [done|]. by exists [].
  - simpl. do 2 eexists. eexists [_]. split; [reflexivity|]. simpl.
    do 4 (split; [done|]). left. split; [done|]. by exists [].
Qed.

Section sending.
Context `{Runtime}.

(** The retry loop always returns; it grants nothing, writes only to
    [hr_email], and opens at most one session per element of [attempts]. *)
Lemma attempt_loop_shape self msg hr_email hr_name mr attempts w :
  ∃ returned w' t,
    attempt_loop self msg hr_email hr_name mr attempts w = (Ok returned, w')
    ∧ same_setting w w'
    ∧ trace w' = t ++ trace w ∧ granted t = []
    ∧ Forall (λ a, a.1 = hr_email) (smtp_attempts t)
    ∧ (length (smtp_attempts t) ≤ length attempts)%nat.
Proof.
  revert w. induction attempts as [|attempt rest IH]; intros w.
  { exists false, w, []. simpl. split; [done|]. split; [apply same_setting_refl|].
    by repeat split. }
  simpl. unfold mbind at 1. unfold M_bind at 1.
  unfold try_except, smtp_session, mbind, M_bind, log, emit, time_sleep, mret, M_ret.
  simpl.
  destruct (relay w (sessions w)) as [|e] eqn:Hrelay; simpl.
  - do 2 eexists. eexists [_; _; _]. split; [reflexivity|].
    split; [by repeat split|]. simpl. split; [reflexivity|]. simpl.
    split; [done|]. split; [by apply Forall_cons|lia].
  - destruct (decide (attempt < mr - 1)); simpl.
    + rewrite decide_False by (pose proof (Z.pow_nonneg 2 attempt); lia). simpl.
      match goal with |- context [attempt_loop _ _ _ _ _ _ ?w1] =>
        destruct (IH w1) as (returned & w' & t & -> & Hset & Htr & Hgr & Hto & Hlen)
      end.
      exists returned, w', (t ++ [EvSleep (2 ^ attempt);
                                 EvLog WARNING (Retrying (2 ^ attempt));
                                 EvLog ERROR (failure_message hr_email attempt e);
                                 EvSmtp (email_user self) hr_email msg (SessionRaises e)]).
      split; [done|]. split; [exact Hset|]. simpl.
      split; [by rewrite Htr, <- app_assoc|].
      rewrite granted_app, smtp_attempts_app, Hgr, length_app. simpl.
      split; [done|]. split; [|lia].
      apply Forall_app. split; [done|]. by apply Forall_cons.
    + match goal with |- context [attempt_loop _ _ _ _ _ _ ?w1] =>
        destruct (IH w1) as (returned & w' & t & -> & Hset & Htr & Hgr & Hto & Hlen)
      end.
      exists returned, w', (t ++ [EvLog ERROR (failure_message hr_email attempt e);
                                 EvSmtp (email_user self) hr_email msg (SessionRaises e)]).
      split; [done|]. split; [exact Hset|]. simpl.
      split; [by rewrite Htr, <- app_assoc|].
      rewrite granted_app, smtp_attempts_app, Hgr, length_app. simpl.
      split; [done|]. split; [|lia].
      apply Forall_app. split; [done|]. by apply Forall_cons.
Qed.

(** One call of [send_outreach_email]: [wait] runs first and once, every
    session is addressed to [hr_email], and there are at most [max_retries]
    of them. *)
Lemma send_outreach_email_shape self hr_email hr_name company_name mr w :
  ∃ r w' before after,
    send_outreach_email self hr_email hr_name company_name mr w = (r, w')
    ∧ (∀ code, r ≠ Exit code)
    ∧ same_setting w w'
    ∧ trace w' = after ++ before ++ trace w
    ∧ smtp_attempts before = [] ∧ granted after = []
    ∧ Forall (λ a, a.1 = hr_email) (smtp_attempts after)
    ∧ (length (smtp_attempts after) ≤ Z.to_nat (default (max_retries self) mr))%nat
    ∧ ((∃ g quiet, before = EvAcquire g :: quiet ∧ granted quiet = [])
       ∨ r = Raise IndexError ∧ after = [] ∧ granted before = []
         ∧ calls_per_period (email_rate_limiter w) ≤ 0).
Proof.
  destruct (wait_shape w) as (r0 & w1 & t1 & Hwait & Hset & _ & Htr & Hsmtp & Hcase).
  unfold send_outreach_email. unfold mbind at 1. unfold M_bind at 1. rewrite Hwait.
  destruct Hcase as [[-> (quiet & -> & Hquiet)]|(-> & Hgr & HK)].
  2:{ exists (Raise IndexError), w1, t1, []. split; [done|]. split; [done|].
      split; [done|]. split; [done|]. split; [done|]. do 3 (split; [done || simpl; lia|]).
      right. done. }
  assert (∃ g q, EvAcquire (clock w1) :: quiet = EvAcquire g :: q ∧ granted q = [])
    as Hbefore by eauto.
  destruct (template self) as [template|].
  2:{ unfold log, emit. simpl. do 2 eexists. exists (EvAcquire (clock w1) :: quiet).
      eexists [_]. split; [reflexivity|]. split; [done|]. split; [exact Hset|].
      simpl. rewrite Htr. split; [done|]. split; [done|]. split; [done|].
      split; [constructor|]. split; [simpl; lia|]. by left. }
  destruct (str_format _ _) as [e|body].
  { assert (∃ w2 after, (match e with
                        | KeyError k => log ERROR (TemplateMissingPlaceholder (KeyError k))
                        | _ => raise e
                        end) w1 = (match e with KeyError _ => Ok () | _ => Raise e end, w2)
              ∧ same_setting w1 w2 ∧ trace w2 = after ++ trace w1
              ∧ granted after = [] ∧ smtp_attempts after = [])
      as (w2 & after & Hrun & Hset2 & Htr2 & Hgr2 & Hnone).
    { destruct e; try (exists w1, []; by repeat split).
      eexists _, [_]. by repeat split. }
    exists (match e with KeyError _ => Ok () | _ => Raise e end), w2,
      (EvAcquire (clock w1) :: quiet), after.
    split; [destruct e; exact Hrun|]. split; [by destruct e|].
    split; [by eapply same_setting_trans|]. rewrite Htr2, Htr. split; [done|].
    split; [done|]. split; [done|]. rewrite Hnone. split; [constructor|].
    split; [simpl; lia|]. by left. }
  unfold mbind at 1. unfold M_bind at 1.
  assert (∃ part w2 t2,
            try_except
              (payload ← open_read (resume_path self); mret (Some payload))
              (λ e, match e with
                    | FileNotFoundError =>
                        Some (log ERROR (ResumeNotFound (resume_path self));; mret None)
                    | _ => Some (log ERROR (ResumeAttachError e);; mret None)
                    end) w1 = (Ok part, w2)
            ∧ same_setting w1 w2 ∧ trace w2 = t2 ++ trace w1
            ∧ granted t2 = [] ∧ smtp_attempts t2 = [])
    as (part & w2 & t2 & -> & Hset2 & Htr2 & Hgr2 & Hsmtp2).
  { unfold try_except, open_read, mbind, M_bind, log, emit, mret, M_ret. simpl.
    destruct (files w1 !! resume_path self) as [[payload|]|]; simpl.
    - exists (Some payload), w1, []. by repeat split.
    - eexists None, _, [_]. by repeat split.
    - eexists None, _, [_]. by repeat split. }
  destruct part as [payload|].
  2:{ exists (Ok ()), w2, (EvAcquire (clock w1) :: quiet), t2. split; [done|].
      split; [done|]. split; [by eapply same_setting_trans|].
      rewrite Htr2, Htr. split; [done|]. split; [done|]. split; [done|].
      rewrite Hsmtp2. split; [constructor|]. split; [simpl; lia|]. by left. }
  unfold mbind, M_bind.
  match goal with |- context [attempt_loop ?s ?m ?e ?n ?k ?l ?w0] =>
    destruct (attempt_loop_shape s m e n k l w0)
      as (returned & w3 & t3 & -> & Hset3 & Htr3 & Hgr3 & Hto3 & Hlen3)
  end.
  rewrite length_seqZ in Hlen3.
  assert (∃ w4 t4, (if returned then mret ()
                    else log ERROR (FailedAfter hr_email (default (max_retries self) mr))) w3
                   = (Ok (), w4)
                   ∧ same_setting w3 w4 ∧ trace w4 = t4 ++ trace w3
                   ∧ granted t4 = [] ∧ smtp_attempts t4 = [])
    as (w4 & t4 & -> & Hset4 & Htr4 & Hgr4 & Hsmtp4).
  { destruct returned.
    - exists w3, []. by repeat split.
    - eexists _, [_]. by repeat split. }
  exists (Ok ()), w4, (EvAcquire (clock w1) :: quiet), (t4 ++ t3 ++ t2).
  split; [done|]. split; [done|].
  split; [eauto using same_setting_trans|].
  rewrite Htr4, Htr3, Htr2, Htr, <- !app_assoc. split; [done|]. split; [done|].
  rewrite !granted_app, !smtp_attempts_app, Hgr4, Hgr3, Hgr2, Hsmtp4, Hsmtp2.
  split; [done|]. simpl. rewrite app_nil_r. split; [done|]. split; [done|]. by left.
Qed.

End sending.

(** C2 as stated fails: with a relay that always fails and
    [max_retries = 3], one call acquires once and opens three sessions. *)
Lemma acquire_per_attempt_counterexample :
  ∃ w', send_outreach_email (H := sample_runtime) office_manager
          "jane@acme.com" "Jane" "Acme" None
          (office (λ _, SessionRaises SMTPException)) = (Ok (), w')
    ∧ length (granted (trace w')) = 1%nat
    ∧ length (smtp_attempts (trace w')) = 3%nat
    ∧ length (granted (trace w')) ≠ length (smtp_attempts (trace w')).
Proof. eexists. split; [vm_compute; reflexivity|]. by vm_compute. Qed.

(** C2, as the source has it: a call of [send_outreach_email] runs [wait]
    exactly once, before composing the message and before the first SMTP
    session; the sessions that follow, retries included, come with no
    further acquisition, and there are at most [max_retries] of them. *)
Theorem one_acquire_per_call `{Runtime} (self : OutreachManager)
    (hr_email hr_name company_name : string) (mr : option Z) (w : World) :
  1 ≤ calls_per_period (email_rate_limiter w) →
  ∃ r w' g before after,
    send_outreach_email self hr_email hr_name company_name mr w = (r, w')
    ∧ trace w' = after ++ EvAcquire g :: before ++ trace w
    ∧ granted before = [] ∧ smtp_attempts before = []
    ∧ granted after = []
    ∧ (length (smtp_attempts after) ≤ Z.to_nat (default (max_retries self) mr))%nat.
Proof.
  intros HK.
  destruct (send_outreach_email_shape self hr_email hr_name company_name mr w)
    as (r & w' & before & after & Hrun & _ & _ & Htr & Hsmtp & Hgr & _ & Hlen & Hcase).
  destruct Hcase as [(g & quiet & -> & Hquiet)|(_ & _ & _ & ?)]; [|lia].
  exists r, w', g, quiet, after. split; [done|]. split; [done|].
  split; [done|]. split; [|done]. simpl in Hsmtp. done.
Qed.

Lemma one_acquire_per_call_witness :
  let w := office (λ _, SessionRaises SMTPException) in
  1 ≤ calls_per_period (email_rate_limiter w)
  ∧ ∃ r w' g before after,
      send_outreach_email (H := sample_runtime) office_manager
        "jane@acme.com" "Jane" "Acme" None w = (r, w')
      ∧ trace w' = after ++ EvAcquire g :: before ++ trace w
      ∧ granted before = [] ∧ smtp_attempts before = []
      ∧ granted after = []
      ∧ (length (smtp_attempts after) ≤ Z.to_nat (default (max_retries office_manager) None))%nat.
Proof.
  assert (1 ≤ 10) as HK by lia.
  split; [exact HK|].
  exact (one_acquire_per_call (H := sample_runtime) office_manager
           "jane@acme.com" "Jane" "Acme" None
           (office (λ _, SessionRaises SMTPException)) HK).
Defined.

(** C5: when every SMTP session raises and [max_retries] is 3, a call that
    gets to the retry loop opens exactly three sessions, sleeps [2^0] after
    the first and [2^1] after the second, sleeps no more after the third,
    logs the failure and returns. *)
Theorem retry_exhaustion `{Runtime} (self : OutreachManager)
    (hr_email hr_name company_name : string) (mr : option Z) (w : World)
    (text body payload : string) :
  default (max_retries self) mr = 3 →
  1 ≤ calls_per_period (email_rate_limiter w) →
  template self = Some text →
  str_format text [("recruiter_name", hr_name); ("company_name", company_name)]
    = inr body →
  files w !! resume_path self = Some (Readable payload) →
  (∀ n, relay w n ≠ Delivered) →
  ∃ w' g before e0 e1 e2,
    let msg := mkMessage (email_user self) hr_email
                 "Seeking Assistance for Suitable Job Opportunity & Referral"
                 body (basename (resume_path self)) payload in
    let after := reverse (exhausted_events (email_user self) hr_email msg e0 e1 e2) in
    send_outreach_email self hr_email hr_name company_name mr w = (Ok (), w')
    ∧ trace w' = after ++ EvAcquire g :: before ++ trace w
    ∧ smtp_attempts before = []
    ∧ length (smtp_attempts after) = 3%nat
    ∧ sleeps after = [2 ^ 1; 2 ^ 0].
Proof.
  intros Hmr HK Htpl Hfmt Hfile Hrelay.
  destruct (wait_shape w) as (r0 & w1 & t1 & Hwait & Hset & Hses & Htr & Hsmtp & Hcase).
  destruct Hcase as [[-> (quiet & -> & Hquiet)]|(_ & _ & ?)]; [|lia].
  destruct Hset as (_ & Hrl & _ & Hfs & _).
  unfold send_outreach_email. unfold mbind at 1. unfold M_bind at 1.
  rewrite Hwait, Htpl, Hfmt, Hmr.
  unfold try_except, open_read, mbind, M_bind, mret, M_ret. rewrite Hfs, Hfile.
  change (seqZ 0 3) with [0; 1; 2].
  unfold attempt_loop, try_except, smtp_session, mbind, M_bind, log, emit,
    time_sleep, mret, M_ret. simpl.
  assert (∀ n, relay w1 n ≠ Delivered) as Hrelay1
    by (intros n; rewrite Hrl; apply Hrelay).
  destruct (relay w1 (sessions w1)) as [|e0] eqn:H0;
    [by destruct (Hrelay1 (sessions w1))|].
  simpl.
  destruct (relay w1 (S (sessions w1))) as [|e1] eqn:H1;
    [by destruct (Hrelay1 (S (sessions w1)))|].
  simpl.
  destruct (relay w1 (S (S (sessions w1)))) as [|e2] eqn:H2;
    [by destruct (Hrelay1 (S (S (sessions w1))))|].
  simpl.
  eexists _, (clock w1), quiet, e0, e1, e2. simpl.
  split; [reflexivity|]. simpl. rewrite Htr. split; [reflexivity|].
  split; [exact Hsmtp|]. done.
Qed.

Lemma retry_exhaustion_witness :
  let w := office (λ _, SessionRaises SMTPException) in
  ∃ w' g before e0 e1 e2,
    let msg := mkMessage "me@example.org" "jane@acme.com"
                 "Seeking Assistance for Suitable Job Opportunity & Referral"
                 "Dear Jane of Acme" "resume.pdf" "%PDF" in
    let after := reverse (exhausted_events "me@example.org" "jane@acme.com" msg e0 e1 e2) in
    send_outreach_email (H := sample_runtime) office_manager
      "jane@acme.com" "Jane" "Acme" None w = (Ok (), w')
    ∧ trace w' = after ++ EvAcquire g :: before ++ trace w
    ∧ smtp_attempts before = []
    ∧ length (smtp_attempts after) = 3%nat
    ∧ sleeps after = [2 ^ 1; 2 ^ 0].
Proof.
  apply (retry_exhaustion (H := sample_runtime) office_manager
           "jane@acme.com" "Jane" "Acme" None
           (office (λ _, SessionRaises SMTPException))
           "Dear {recruiter_name} of {company_name}" "Dear Jane of Acme" "%PDF").
  - reflexivity.
  - simpl. lia.
  - reflexivity.
  - reflexivity.
  - reflexivity.
  - intros n. simpl. discriminate.
Defined.

(** * The address pattern *)

Lemma rep_greedy_complete cls k least r tail :
  Forall (λ x, cls x = true) r → (least ≤ length r)%nat →
  is_Some (k tail) → is_Some (rep_greedy cls k least (r ++ tail)).
Proof.
  intros Hr. revert least. induction Hr as [|x r Hx _ IH]; intros least Hleast Hk.
  - simpl in Hleast. assert (least = 0%nat) as -> by lia. simpl.
    destruct tail as [|y tail]; [done|]. simpl.
    destruct (cls y); [|done]. by destruct (rep_greedy cls k 0 tail).
  - simpl. rewrite Hx.
    destruct (IH (pred least)) as [n ->]; [simpl in Hleast; lia|done|]. done.
Qed.

(** The backtracking matcher finds a match wherever the pattern has one. *)
Lemma match_here_complete p u tail :
  matches p u → is_Some (match_here p (u ++ tail)).
Proof.
  revert u. induction p as [|[c|cls least] p IH]; intros u Hu; simpl in *.
  - done.
  - destruct Hu as (v & -> & Hv). simpl. rewrite decide_True by done.
    destruct (IH v Hv) as [n ->]. done.
  - destruct Hu as (r & v & -> & Hr & Hleast & Hv). rewrite <- app_assoc.
    apply rep_greedy_complete; auto.
Qed.


Lemma rep_greedy_progress cls k least s n :
  rep_greedy cls k (S least) s = Some n → n ≠ 0%nat.
Proof.
  destruct s as [|x s]; simpl; [done|].
  destruct (cls x); [|done]. destruct (rep_greedy cls k least s); [|done].
  intros [= <-]. done.
Qed.

(** A match of a pattern that starts with a compulsory repetition is not
    empty. *)
Lemma re_search_nonempty cls least p s m :
  re_search (Rep cls (S least) :: p) s = Some m → m ≠ [].
Proof.
  induction s as [|x s IH]; simpl.
  - done.
  - destruct (cls x); [|exact IH].
    destruct (rep_greedy cls (match_here p) least s); [|exact IH].
    intros [= <-]. done.
Qed.

Lemma list_ascii_of_string_app s1 s2 :
  list_ascii_of_string (s1 +:+ s2) = list_ascii_of_string s1 ++ list_ascii_of_string s2.
Proof. induction s1 as [|c s1 IH]; simpl; [done|]. by rewrite IH. Qed.

Lemma string_of_list_ascii_nonempty l : l ≠ [] → string_of_list_ascii l ≠ "".
Proof. by destruct l. Qed.

Lemma address_shaped_matches addr :
  address_shaped addr → matches email_regex (list_ascii_of_string addr).
Proof.
  intros (l & d & t & -> & Hl & Hlc & Hd & Hdc & Ht & Htc). simpl.
  exists l, ("@"%char :: d ++ "."%char :: t). split; [done|]. split; [done|].
  split; [destruct l; [done|simpl; lia]|].
  eexists. split; [done|].
  exists d, ("."%char :: t). split; [done|]. split; [done|].
  split; [destruct d; [done|simpl; lia]|].
  eexists. split; [done|].
  exists t, []. split; [by rewrite app_nil_r|]. done.
Qed.


Lemma _find_email_truthy text m :
  _find_email (Some text) = Some m → truthy (PyStr m) = true.
Proof.
  unfold _find_email.
  destruct (re_search email_regex (list_ascii_of_string text)) as [found|] eqn:Hfound;
    [|done].
  intros [= <-]. apply truthy_str, string_of_list_ascii_nonempty.
  by eapply re_search_nonempty.
Qed.

(** * Splitting a name *)

Lemma split_go_nonempty cur s : Forall (λ token, token ≠ []) (split_go cur s).
Proof.
  revert cur. induction s as [|c s IH]; intros cur; simpl.
  - destruct cur as [|x cur]; [constructor|].
    constructor; [|constructor]. rewrite reverse_cons. by destruct (reverse cur).
  - destruct (is_space c); [|apply IH].
    destruct cur as [|x cur]; [apply IH|].
    constructor; [|apply IH]. rewrite reverse_cons. by destruct (reverse cur).
Qed.

Lemma py_split_truthy s first rest :
  py_split s = first :: rest → truthy (PyStr first) = true.
Proof.
  unfold py_split. intros Hsplit.
  pose proof (split_go_nonempty [] (list_ascii_of_string s)) as Hne.
  destruct (split_go [] (list_ascii_of_string s)) as [|token tokens]; [done|].
  simpl in Hsplit. injection Hsplit as <- _.
  apply truthy_str, string_of_list_ascii_nonempty. by inversion Hne.
Qed.

(** A name of whitespace only has no first token. *)
Lemma split_go_blank s :
  Forall (λ c, is_space c = true) s → split_go [] s = [].
Proof. induction 1 as [|c s Hc _ IH]; simpl; [done|]. by rewrite Hc. Qed.

(** * The dispatcher *)

Lemma logged_nil w : logged w [] = w.
Proof. by destruct w. Qed.

Lemma logged_logged w t1 t2 : logged (logged w t1) t2 = logged w (t2 ++ t1).
Proof. unfold logged. simpl. by rewrite app_assoc. Qed.

Section dispatcher.
Context `{Runtime}.

(** The loop body reads the record only: it returns, writes one log record,
    and submits a task only for an address that passes [_find_email]. *)
Lemma submit_one_cases self (r : gmap string pyval) :
  ∃ fut lvl m,
    (∀ w, submit_one self r w = (Ok fut, logged w [EvLog lvl m]))
    ∧ match fut with
      | Some f =>
          ∃ v, r !! "Email" = Some v ∧ task_email f = py_strip (py_str v)
               ∧ is_Some (_find_email (Some (task_email f)))
      | None => True
      end.
Proof.
  unfold submit_one, try_except, mbind, M_bind, mret, M_ret, raise, log, emit, logged.
  destruct (r !! "Email") as [v|] eqn:Hemail.
  2:{ by exists None, ERROR, (SkippingMissingKey (KeyError "Email") r). }
  destruct (py_split (py_str (default (PyStr "HR") (r !! "Name"))))
    as [|first rest] eqn:Hsplit.
  { by exists None, ERROR, (ErrorSubmitting (Some v) IndexError). }
  destruct (_find_email (Some (py_strip (py_str v)))) as [m|] eqn:Hfind.
  - eexists (Some _), INFO, _. split.
    + intros w. cbn [from_option]. rewrite (_find_email_truthy _ _ Hfind). reflexivity.
    + exists v. cbn [task_email]. rewrite Hfind. eauto.
  - by exists None, WARNING, (SkippingInvalidEmail (py_strip (py_str v))).
Qed.

Lemma submit_one_world self r w :
  submit_one self r w = (Ok (triage self r), logged w (triage_log self r)).
Proof.
  destruct (submit_one_cases self r) as (fut & lvl & m & Hrun & _).
  unfold triage, triage_log. by rewrite !Hrun.
Qed.

Lemma triage_log_quiet self r :
  smtp_attempts (triage_log self r) = [] ∧ granted (triage_log self r) = [].
Proof.
  destruct (submit_one_cases self r) as (fut & lvl & m & Hrun & _).
  unfold triage_log. by rewrite Hrun.
Qed.

Lemma triage_valid self r f :
  triage self r = Some f →
  ∃ v, r !! "Email" = Some v ∧ task_email f = py_strip (py_str v)
       ∧ is_Some (_find_email (Some (task_email f))).
Proof.
  destruct (submit_one_cases self r) as (fut & lvl & m & Hrun & Hfut).
  unfold triage. rewrite Hrun. simpl. by intros ->.
Qed.

(** The submission loop: one triage per record, in order. *)
Lemma submit_all_world self rs w :
  ∃ t, submit_all self rs w = (Ok (omap (triage self) rs), logged w t)
       ∧ smtp_attempts t = [] ∧ granted t = [].
Proof.
  revert w. induction rs as [|r rs IH]; intros w.
  - exists []. by rewrite logged_nil.
  - simpl. unfold mbind at 1. unfold M_bind at 1. rewrite submit_one_world.
    unfold mbind at 1. unfold M_bind at 1.
    destruct (IH (logged w (triage_log self r))) as (t & -> & Hsmtp & Hgr).
    exists (t ++ triage_log self r). rewrite logged_logged.
    destruct (triage_log_quiet self r) as [Hs Hg].
    rewrite smtp_attempts_app, granted_app, Hsmtp, Hgr, Hs, Hg.
    split; [|done]. by destruct (triage self r).
Qed.

(** Joining the futures: every task runs, an exception of a task is logged,
    and each SMTP session goes to the address of one of the tasks. *)
Lemma join_all_shape self futures w :
  ∃ w' t, join_all self futures w = (Ok (), w')
    ∧ trace w' = t ++ trace w
    ∧ Forall (λ a, a.1 ∈ task_email <$> futures) (smtp_attempts t).
Proof.
  revert w. induction futures as [|f futures IH]; intros w.
  - exists w, []. by repeat split.
  - simpl. unfold mbind at 1. unfold M_bind at 1. unfold try_except.
    destruct (send_outreach_email_shape self (task_email f) (task_name f)
                (task_company f) None w)
      as (r & w1 & before & after & -> & Hexit & _ & Htr & Hsmtp & _ & Hto & _).
    assert (∃ w2 t2, (match r with
                      | Ok a => (Ok a, w1)
                      | Raise e => log ERROR (TaskFailed e) w1
                      | Exit code => (Exit code, w1)
                      end) = (Ok (), w2)
                     ∧ trace w2 = t2 ++ trace w1 ∧ smtp_attempts t2 = [])
      as (w2 & t2 & -> & Htr2 & Hsmtp2).
    { destruct r as [[]|e|code].
      - by exists w1, [].
      - by eexists _, [_].
      - by destruct (Hexit code). }
    destruct (IH w2) as (w3 & t3 & -> & Htr3 & Hto3).
    exists w3, (t3 ++ t2 ++ after ++ before).
    split; [done|]. split; [by rewrite Htr3, Htr2, Htr, <- !app_assoc|].
    rewrite !smtp_attempts_app, Hsmtp2, Hsmtp, app_nil_r. simpl.
    apply Forall_app. split.
    + eapply Forall_impl; [exact Hto3|]. simpl. intros a Ha. by right.
    + eapply Forall_impl; [exact Hto|]. simpl. intros a ->. by left.
Qed.

(** A whole batch: with a pool of positive size the call returns [None];
    every SMTP session goes to the address of a record that passed triage. *)
Lemma send_emails_concurrently_shape self rs w :
  0 < max_threads self →
  ∃ w' t, send_emails_concurrently self rs w = (Ok PyNone, w')
    ∧ trace w' = t ++ trace w
    ∧ Forall (λ a, a.1 ∈ task_email <$> omap (triage self) rs) (smtp_attempts t).
Proof.
  intros Hpool. unfold send_emails_concurrently. rewrite decide_False by lia.
  unfold mbind at 1. unfold M_bind at 1.
  destruct (submit_all_world self rs w) as (t1 & -> & Hsmtp1 & _).
  unfold mbind, M_bind.
  destruct (join_all_shape self (omap (triage self) rs) (logged w t1))
    as (w2 & t2 & -> & Htr2 & Hto).
  exists w2, (t2 ++ t1). split; [done|]. simpl in Htr2.
  split; [by rewrite Htr2, app_assoc|].
  by rewrite smtp_attempts_app, Hsmtp1, app_nil_r.
Qed.

End dispatcher.

Section batches.
Context `{Runtime}.

Lemma triage_invalid self (r : gmap string pyval) v :
  r !! "Email" = Some v →
  _find_email (Some (py_strip (py_str v))) = None →
  triage self r = None.
Proof.
  intros Hemail Hfind. destruct (triage self r) as [f|] eqn:Hf; [|done].
  destruct (triage_valid self r f Hf) as (v' & Hv' & Hto & Hsome).
  rewrite Hemail in Hv'. injection Hv' as <-.
  rewrite Hto, Hfind in Hsome. by destruct Hsome.
Qed.

(** No session of a batch goes to an address that fails validation. *)
Lemma no_session_to_invalid self rs w' t w hr_email :
  _find_email (Some hr_email) = None →
  Forall (λ a, a.1 ∈ task_email <$> omap (triage self) rs) (smtp_attempts t) →
  send_emails_concurrently self rs w = (Ok PyNone, w') →
  hr_email ∉ (smtp_attempts t).*1.
Proof.
  intros Hfind Hall _ Hin.
  apply list_elem_of_fmap in Hin as (a & Hmail & Ha).
  rewrite Forall_forall in Hall. specialize (Hall a Ha).
  apply list_elem_of_fmap in Hall as (f & Hf & Hfin).
  apply list_elem_of_omap in Hfin as (r & _ & Hr).
  destruct (triage_valid self r f Hr) as (v & _ & _ & Hsome).
  rewrite <- Hf, <- Hmail, Hfind in Hsome. by destruct Hsome.
Qed.

(** The name handed to a task is the first token of the name field. *)
Lemma first_name_token self (r : gmap string pyval) v first rest m w :
  r !! "Email" = Some v →
  py_split (py_str (default (PyStr "HR") (r !! "Name"))) = first :: rest →
  _find_email (Some (py_strip (py_str v))) = Some m →
  ∃ company,
    submit_one self r w
    = (Ok (Some (mkTask (py_strip (py_str v)) first company)),
       logged w [EvLog INFO (SubmittingTask (py_strip (py_str v)))]).
Proof.
  intros Hemail Hsplit Hfind.
  unfold submit_one, try_except, mbind, M_bind, mret, M_ret, raise, log, emit, logged.
  rewrite Hemail, Hsplit, Hfind. cbn [from_option].
  rewrite (_find_email_truthy _ _ Hfind), (py_split_truthy _ _ _ Hsplit).
  eexists. reflexivity.
Qed.

(** A name field without any token makes the loop body raise [IndexError];
    the record is not submitted. *)
Lemma tokenless_name_dropped self (r : gmap string pyval) v w :
  r !! "Email" = Some v →
  py_split (py_str (default (PyStr "HR") (r !! "Name"))) = [] →
  submit_one self r w
  = (Ok None, logged w [EvLog ERROR (ErrorSubmitting (Some v) IndexError)]).
Proof.
  intros Hemail Hsplit.
  unfold submit_one, try_except, mbind, M_bind, mret, M_ret, raise, log, emit, logged.
  by rewrite Hemail, Hsplit.
Qed.

End batches.

(** A value of the shape the spec describes, for comparison. *)
Example summary_shape :
  is_batch_summary
    (PyObj [("total_submitted", PyInt 2); ("succeeded", PyInt 1); ("failed", PyInt 1);
            ("failures", PyObj [("not-an-email", PyStr "invalid_email")])]).
Proof. exists 2, 1, 1. eexists. by vm_compute. Qed.

(** C4 as stated fails: a batch of one valid record is delivered, and the
    call returns [None], which has none of the attributes of a summary. *)
Lemma batch_summary_counterexample :
  ∃ w', send_emails_concurrently (H := sample_runtime) office_manager [jane_doe]
          (office (λ _, Delivered)) = (Ok PyNone, w')
    ∧ smtp_attempts (trace w') = [("jane@acme.com", Delivered)]
    ∧ ¬ is_batch_summary PyNone.
Proof.
  eexists. split; [vm_compute; reflexivity|]. split; [by vm_compute|].
  intros (ts & s & f & fl & Hts & _). discriminate.
Qed.

(** C4, as the source has it: with a pool of positive size
    [send_emails_concurrently] returns [None] for every batch, in every
    world; it returns no counts and no list of failures. *)
Theorem batch_returns_none `{Runtime} (self : OutreachManager)
    (recruiters : list (gmap string pyval)) (w : World) :
  0 < max_threads self →
  ∃ w', send_emails_concurrently self recruiters w = (Ok PyNone, w')
    ∧ ¬ is_batch_summary PyNone.
Proof.
  intros Hpool.
  destruct (send_emails_concurrently_shape self recruiters w Hpool) as (w' & t & -> & _).
  exists w'. split; [done|]. intros (ts & s & f & fl & Hts & _). discriminate.
Qed.

Lemma batch_returns_none_witness :
  0 < max_threads office_manager
  ∧ ∃ w', send_emails_concurrently (H := sample_runtime) office_manager
            [jane_doe; bad_address] (office (λ _, Delivered)) = (Ok PyNone, w')
      ∧ ¬ is_batch_summary PyNone.
Proof.
  assert (0 < max_threads office_manager) as Hpool by (simpl; lia).
  split; [exact Hpool|].
  exact (batch_returns_none (H := sample_runtime) office_manager
           [jane_doe; bad_address] (office (λ _, Delivered)) Hpool).
Defined.

(** C6 fails on the source for an empty name: [str("").split()[0]] raises
    [IndexError], the loop logs an error, and the record is not submitted,
    so no message goes out; the default ["HR"] is never reached. *)
Theorem blank_name_dropped (self : OutreachManager) (w : World) :
  submit_one self blank_name w
  = (Ok None,
     logged w [EvLog ERROR (ErrorSubmitting (Some (PyStr "jane@acme.com")) IndexError)])
  ∧ triage self blank_name = None
  ∧ triage self jane_doe = Some (mkTask "jane@acme.com" "Jane" "Acme")
  ∧ triage self no_name = Some (mkTask "jane@acme.com" "HR" "Acme").
Proof. split; [by apply tokenless_name_dropped|]. by vm_compute. Qed.

(** The batch of that one record, run in full: nothing is sent. *)
Example blank_name_batch :
  ∃ w', send_emails_concurrently (H := sample_runtime) office_manager [blank_name]
          (office (λ _, Delivered)) = (Ok PyNone, w')
    ∧ smtp_attempts (trace w') = []
    ∧ trace w' = [EvLog ERROR (ErrorSubmitting (Some (PyStr "jane@acme.com")) IndexError)].
Proof. eexists. split; [vm_compute; reflexivity|]. by vm_compute. Qed.

(** C7 as stated fails: for a record with a malformed address the only
    thing recorded is a warning in the log; the call returns [None], which
    has no list of failures. *)
Lemma invalid_email_counterexample :
  ∃ w', send_emails_concurrently (H := sample_runtime) office_manager [bad_address]
          (office (λ _, Delivered)) = (Ok PyNone, w')
    ∧ trace w' = [EvLog WARNING (SkippingInvalidEmail "not-an-email")]
    ∧ getattr PyNone "failures" = None.
Proof. eexists. split; [vm_compute; reflexivity|]. by vm_compute. Qed.

(** C7, as the source has it: a record whose address fails [_find_email] is
    not submitted and leaves one log record; the batch submits exactly the
    tasks it would submit without that record; and no SMTP session of the
    batch is addressed to it. *)
Theorem invalid_email_skipped `{Runtime} (self : OutreachManager)
    (pre post : list (gmap string pyval)) (r : gmap string pyval) (v : pyval)
    (w : World) :
  r !! "Email" = Some v →
  _find_email (Some (py_strip (py_str v))) = None →
  0 < max_threads self →
  (∃ lvl m, submit_one self r w = (Ok None, logged w [EvLog lvl m]))
  ∧ (submit_all self (pre ++ r :: post) w).1 = (submit_all self (pre ++ post) w).1
  ∧ ∃ w' t, send_emails_concurrently self (pre ++ r :: post) w = (Ok PyNone, w')
      ∧ trace w' = t ++ trace w
      ∧ py_strip (py_str v) ∉ (smtp_attempts t).*1.
Proof.
  intros Hemail Hfind Hpool.
  pose proof (triage_invalid self r v Hemail Hfind) as Hnone.
  split; [|split].
  - destruct (submit_one_cases self r) as (fut & lvl & m & Hrun & _).
    exists lvl, m. rewrite Hrun. unfold triage in Hnone. rewrite Hrun in Hnone.
    simpl in Hnone. by rewrite Hnone.
  - destruct (submit_all_world self (pre ++ r :: post) w) as (t1 & -> & _).
    destruct (submit_all_world self (pre ++ post) w) as (t2 & -> & _).
    simpl. rewrite !omap_app. simpl. by rewrite Hnone.
  - destruct (send_emails_concurrently_shape self (pre ++ r :: post) w Hpool)
      as (w' & t & Hrun & Htr & Hto).
    exists w', t. split; [done|]. split; [done|].
    by eapply no_session_to_invalid.
Qed.

Lemma invalid_email_skipped_witness :
  ∃ w' t, send_emails_concurrently (H := sample_runtime) office_manager
            ([jane_doe] ++ bad_address :: [no_name]) (office (λ _, Delivered))
          = (Ok PyNone, w')
    ∧ trace w' = t ++ trace (office (λ _, Delivered))
    ∧ py_strip (py_str (PyStr "not-an-email")) ∉ (smtp_attempts t).*1.
Proof.
  apply (invalid_email_skipped (H := sample_runtime) office_manager
           [jane_doe] [no_name] bad_address (PyStr "not-an-email")
           (office (λ _, Delivered))).
  - reflexivity.
  - vm_compute. reflexivity.
  - simpl. lia.
Defined.

(** The address is searched for inside the field, and what is found is
    dropped: the whole stripped field is the recipient of the session. *)
Example address_in_text_batch :
  _find_email (Some "Contact: jane@acme.com (HR)") = Some "jane@acme.com"
  ∧ ∃ w', send_emails_concurrently (H := sample_runtime) office_manager
            [address_in_text] (office (λ _, Delivered)) = (Ok PyNone, w')
      ∧ smtp_attempts (trace w') = [("Contact: jane@acme.com (HR)", Delivered)].
Proof.
  split; [by vm_compute|]. eexists. split; [vm_compute; reflexivity|]. by vm_compute.
Qed.



(** * Further properties of the rate limiter *)

Lemma sleeps_app tr1 tr2 : sleeps (tr1 ++ tr2) = sleeps tr1 ++ sleeps tr2.
Proof. apply omap_app. Qed.

(** A call that finds fewer stored timestamps than the budget returns at
    once: it reads the clock once, does not sleep and only records its
    grant. *)
Lemma wait_under_budget w :
  Z.of_nat (length (timestamps (email_rate_limiter w)))
  < calls_per_period (email_rate_limiter w) →
  ∃ w', wait w = (Ok (), w')
    ∧ trace w' = EvAcquire (clock w + drift w (reads w)) :: trace w
    ∧ reads w' = S (reads w) ∧ drift w' = drift w
    ∧ calls_per_period (email_rate_limiter w') = calls_per_period (email_rate_limiter w)
    ∧ (length (timestamps (email_rate_limiter w'))
       ≤ S (length (timestamps (email_rate_limiter w))))%nat.
Proof.
  destruct w as [c dr rd rl ss env fs [K P ts] tr]. simpl. intros Hroom.
  unfold wait, set_timestamps, mbind, M_bind, time_time, get_limiter,
    set_limiter, log, emit, time_sleep, mret, M_ret. simpl.
  pose proof (length_filter (λ t, c + dr rd - P < t) ts) as Hkept.
  rewrite decide_False by lia. simpl.
  eexists. split; [reflexivity|]. simpl. do 4 (split; [done|]).
  rewrite length_app. simpl. lia.
Qed.

Lemma wait_times_under_budget n w :
  Z.of_nat (n + length (timestamps (email_rate_limiter w)))
  ≤ calls_per_period (email_rate_limiter w) →
  ∃ w', wait_times n w = (Ok (), w')
    ∧ sleeps (trace w') = sleeps (trace w)
    ∧ length (granted (trace w')) = (n + length (granted (trace w)))%nat
    ∧ reads w' = (n + reads w)%nat.
Proof.
  revert w. induction n as [|n IH]; intros w Hroom.
  - by exists w.
  - destruct (wait_under_budget w) as (w1 & Hrun & Htr & Hrd & _ & HK & Hlen); [lia|].
    destruct (IH w1) as (w2 & Hrun2 & Hsl & Hgr & Hrd2); [lia|].
    exists w2. simpl. unfold mbind, M_bind. rewrite Hrun, Hrun2.
    split; [done|]. rewrite Hsl, Hgr, Hrd2, Htr, Hrd. simpl.
    split; [done|]. split; lia.
Qed.

(** X1: the first [calls_per_period] calls on a fresh limiter are not
    throttled: none of them sleeps, each reads the clock once and is
    granted; this holds whatever the clock does. *)
Theorem burst_not_throttled (cpp p t0 : Z) (dr : nat → Z)
    (rl : nat → smtp_result) (env : gmap string string) (fs : gmap string file)
    (n : nat) :
  Z.of_nat n ≤ Z.max 1 cpp →
  ∃ w, wait_times n (boot t0 dr rl env fs (RateLimiter_fields cpp p)) = (Ok (), w)
    ∧ sleeps (trace w) = []
    ∧ length (granted (trace w)) = n
    ∧ reads w = n.
Proof.
  intros Hn.
  destruct (wait_times_under_budget n (boot t0 dr rl env fs (RateLimiter_fields cpp p)))
    as (w & Hrun & Hsl & Hgr & Hrd); [simpl; lia|].
  exists w. simpl in *. split; [done|]. split; [done|]. split; lia.
Qed.

Lemma burst_not_throttled_witness :
  ∃ w, wait_times 3 (boot 7 (λ _, 0) (λ _, Delivered) ∅ ∅ (RateLimiter_fields 3 60))
       = (Ok (), w)
    ∧ sleeps (trace w) = []
    ∧ length (granted (trace w)) = 3%nat
    ∧ reads w = 3%nat.
Proof.
  apply (burst_not_throttled 3 60 7 (λ _, 0) (λ _, Delivered) ∅ ∅ 3). lia.
Defined.

(** One call from a state that satisfies the invariant sleeps at most once,
    for a positive time that does not exceed [period]. *)
Lemma wait_sleep_bounded w :
  limiter_inv w →
  ∃ w' quiet, wait w = (Ok (), w')
    ∧ trace w' = EvAcquire (clock w') :: quiet ++ trace w
    ∧ (length (sleeps quiet) ≤ 1)%nat
    ∧ Forall (λ d, 0 < d ≤ period (email_rate_limiter w)) (sleeps quiet).
Proof.
  intros Hinv. destruct w as [c dr rd rl ss env fs [K P ts] tr].
  pose proof (inv_drift _ Hinv rd) as Hdr. pose proof (inv_calls _ Hinv) as HK.
  pose proof (inv_past _ Hinv) as Hpast. pose proof (inv_kept _ Hinv) as Hk.
  simpl in Hdr, HK, Hpast, Hk.
  unfold wait, set_timestamps, mbind, M_bind, time_time, get_limiter,
    set_limiter, log, emit, time_sleep, mret, M_ret. simpl.
  set (now := c + dr rd) in *.
  destruct (decide (K ≤ _)) as [Hfull|Hroom].
  - destruct (filter (λ t, now - P < t) ts) as [|first kept'] eqn:Hkept;
      [simpl in Hfull; lia|].
    assert (now - P < first ∧ first ≤ c) as [Hlo Hhi].
    { assert (first ∈ filter (λ t, now - P < t) ts) as Hin
        by (rewrite Hkept; apply list_elem_of_here).
      rewrite (Hk now) in Hin by lia.
      apply list_elem_of_filter in Hin as [? Hin]. split; [done|].
      rewrite elem_of_reverse in Hin. rewrite Forall_forall in Hpast.
      apply (Hpast first Hin). }
    rewrite decide_True by lia. rewrite decide_False by lia. simpl.
    eexists _, [_; _]. split; [reflexivity|]. simpl. split; [reflexivity|].
    simpl. split; [lia|]. apply Forall_cons. split; [lia|constructor].
  - simpl. eexists _, []. split; [reflexivity|]. simpl. split; [reflexivity|].
    simpl. split; [lia|constructor].
Qed.

Lemma wait_times_sleep_bounded n w :
  limiter_inv w →
  Forall (λ d, 0 < d ≤ period (email_rate_limiter w)) (sleeps (trace w)) →
  ∃ w', wait_times n w = (Ok (), w')
    ∧ Forall (λ d, 0 < d ≤ period (email_rate_limiter w)) (sleeps (trace w'))
    ∧ (length (sleeps (trace w')) ≤ n + length (sleeps (trace w)))%nat.
Proof.
  revert w. induction n as [|n IH]; intros w Hinv Hsl.
  - exists w. split; [done|]. split; [done|lia].
  - destruct (wait_sleep_bounded w Hinv) as (w1 & quiet & Hrun & Htr & Hone & Hq).
    destruct (wait_step w Hinv) as (w1' & Hrun' & Hinv1 & _ & _ & HP & _).
    rewrite Hrun in Hrun'. injection Hrun' as <-.
    destruct (IH w1) as (w2 & Hrun2 & Hsl2 & Hlen2); [done| |].
    { rewrite Htr, HP. simpl. rewrite sleeps_app. by apply Forall_app. }
    exists w2. simpl. unfold mbind, M_bind. rewrite Hrun, Hrun2.
    split; [done|]. rewrite HP in Hsl2. split; [done|].
    rewrite Htr in Hlen2. simpl in Hlen2. rewrite sleeps_app, length_app in Hlen2. lia.
Qed.

(** X2: under a clock that never runs backwards, a call of [wait] sleeps at
    most once, and every sleep is positive and no longer than [period]. *)
Theorem wait_is_bounded (cpp p t0 : Z) (dr : nat → Z)
    (rl : nat → smtp_result) (env : gmap string string) (fs : gmap string file)
    (n : nat) :
  (∀ k, 0 ≤ dr k) →
  ∃ w, wait_times n (boot t0 dr rl env fs (RateLimiter_fields cpp p)) = (Ok (), w)
    ∧ Forall (λ d, 0 < d ≤ Z.max 1 p) (sleeps (trace w))
    ∧ (length (sleeps (trace w)) ≤ n)%nat.
Proof.
  intros Hdr.
  destruct (wait_times_sleep_bounded n _ (boot_inv t0 dr rl env fs cpp p Hdr))
    as (w & Hrun & Hsl & Hlen); [constructor|].
  exists w. simpl in *. split; [done|]. split; [done|lia].
Qed.

Lemma wait_is_bounded_witness :
  ∃ w, wait_times 4 (boot 0 (λ _, 1) (λ _, Delivered) ∅ ∅ (RateLimiter_fields 2 10))
       = (Ok (), w)
    ∧ Forall (λ d, 0 < d ≤ Z.max 1 10) (sleeps (trace w))
    ∧ (length (sleeps (trace w)) ≤ 4)%nat.
Proof.
  apply (wait_is_bounded 2 10 0 (λ _, 1) (λ _, Delivered) ∅ ∅ 4). intros k. lia.
Defined.








(** * Further properties of [send_outreach_email] *)

Section retrying.
Context `{Runtime}.

(** A run of failing sessions at the head of the loop: one session per
    element, the back-off sleeps of the source, and the loop goes on with
    the remaining attempts. *)
Lemma attempt_loop_failures self msg hr_email hr_name mr pre w :
  (∀ i, (i < length pre)%nat → relay w (sessions w + i)%nat ≠ Delivered) →
  ∃ w' t,
    (∀ rest, attempt_loop self msg hr_email hr_name mr (pre ++ rest) w
             = attempt_loop self msg hr_email hr_name mr rest w')
    ∧ same_setting w w' ∧ sessions w' = (sessions w + length pre)%nat
    ∧ trace w' = t ++ trace w
    ∧ granted t = []
    ∧ smtp_attempts t
      = reverse ((λ i, (hr_email, relay w (sessions w + i)%nat)) <$> seq 0 (length pre))
    ∧ sleeps t
      = reverse (omap (λ a, if decide (a < mr - 1) then Some (2 ^ a) else None) pre).
Proof.
  revert w. induction pre as [|attempt pre IH]; intros w Hfail.
  { exists w, []. split; [done|]. split; [apply same_setting_refl|].
    split; [simpl; lia|]. by repeat split. }
  assert (∃ e, relay w (sessions w) = SessionRaises e) as [e He].
  { specialize (Hfail 0%nat). rewrite Nat.add_0_r in Hfail.
    destruct (relay w (sessions w)) as [|e]; [destruct Hfail; [simpl; lia|done]|eauto]. }
  set (w0 := mkWorld (clock w) (drift w) (reads w) (relay w) (S (sessions w))
               (environ w) (files w) (email_rate_limiter w)
               (EvLog ERROR (failure_message hr_email attempt e)
                :: EvSmtp (email_user self) hr_email msg (SessionRaises e) :: trace w)).
  set (w1 := if decide (attempt < mr - 1) then
               mkWorld (clock w + 2 ^ attempt) (drift w) (reads w) (relay w)
                 (S (sessions w)) (environ w) (files w) (email_rate_limiter w)
                 (EvSleep (2 ^ attempt) :: EvLog WARNING (Retrying (2 ^ attempt))
                  :: trace w0)
             else w0).
  assert (∀ rest, attempt_loop self msg hr_email hr_name mr ((attempt :: pre) ++ rest) w
                  = attempt_loop self msg hr_email hr_name mr (pre ++ rest) w1) as Hstep.
  { intros rest. simpl. unfold mbind at 1. unfold M_bind at 1.
    unfold try_except, smtp_session, mbind, M_bind, log, emit, time_sleep, mret, M_ret.
    simpl. rewrite He. simpl. unfold w1, w0.
    destruct (decide (attempt < mr - 1)); simpl; [|done].
    rewrite decide_False by (pose proof (Z.pow_nonneg 2 attempt); lia). done. }
  assert (relay w1 = relay w ∧ sessions w1 = S (sessions w) ∧ same_setting w w1)
    as (Hrl & Hss & Hset).
  { unfold w1, w0. destruct (decide (attempt < mr - 1)); by repeat split. }
  destruct (IH w1) as (w' & t & Hloop & Hset' & Hss' & Htr & Hgr & Hsmtp & Hsl).
  { intros i Hi. rewrite Hrl, Hss.
    replace (S (sessions w) + i)%nat with (sessions w + S i)%nat by lia.
    apply Hfail. simpl. lia. }
  exists w', (t ++ (if decide (attempt < mr - 1)
                    then [EvSleep (2 ^ attempt); EvLog WARNING (Retrying (2 ^ attempt))]
                    else [])
               ++ [EvLog ERROR (failure_message hr_email attempt e);
                   EvSmtp (email_user self) hr_email msg (SessionRaises e)]).
  split; [intros rest; by rewrite Hstep, Hloop|].
  split; [by eapply same_setting_trans|].
  split; [rewrite Hss', Hss; simpl; lia|].
  split.
  { rewrite Htr. unfold w1, w0. rewrite <- !app_assoc.
    by destruct (decide (attempt < mr - 1)). }
  rewrite !granted_app, !smtp_attempts_app, !sleeps_app, Hgr, Hsmtp, Hsl.
  split; [by destruct (decide (attempt < mr - 1))|].
  split.
  - change (seq 0 (length (attempt :: pre))) with (0%nat :: seq 1 (length pre)).
    rewrite <- fmap_S_seq, fmap_cons, <- list_fmap_compose.
    rewrite reverse_cons, Nat.add_0_r.
    replace (smtp_attempts (if decide (attempt < mr - 1)
                            then [EvSleep (2 ^ attempt); EvLog WARNING (Retrying (2 ^ attempt))]
                            else [])) with (@nil (string * smtp_result))
      by (by destruct (decide (attempt < mr - 1))).
    simpl. rewrite He. f_equal. f_equal. apply list_fmap_ext.
    intros ? i _. simpl. rewrite Hrl, Hss. do 2 f_equal. lia.
  - simpl. destruct (decide (attempt < mr - 1)); simpl.
    + by rewrite reverse_cons.
    + by rewrite app_nil_r.
Qed.

(** With the limiter open and the message composable, [send_outreach_email]
    is one [wait] followed by the retry loop on the composed message. *)
Lemma send_reaches_loop self hr_email hr_name company_name mr w :
  1 ≤ calls_per_period (email_rate_limiter w) →
  composes self hr_name company_name w →
  ∃ w1 quiet msg,
    wait w = (Ok (), w1) ∧ same_setting w w1 ∧ sessions w1 = sessions w
    ∧ trace w1 = EvAcquire (clock w1) :: quiet ++ trace w
    ∧ granted quiet = [] ∧ smtp_attempts quiet = []
    ∧ send_outreach_email self hr_email hr_name company_name mr w
      = (returned ← attempt_loop self msg hr_email hr_name
                      (default (max_retries self) mr)
                      (seqZ 0 (default (max_retries self) mr));
         if (returned : bool) then mret ()
         else log ERROR (FailedAfter hr_email (default (max_retries self) mr))) w1.
Proof.
  intros HK (text & body & payload & Htpl & Hfmt & Hfile).
  destruct (wait_shape w) as (r0 & w1 & t1 & Hwait & Hset & Hses & Htr & Hsmtp & Hcase).
  destruct Hcase as [[-> (quiet & -> & Hquiet)]|(_ & _ & ?)]; [|lia].
  exists w1, quiet. eexists. split; [done|]. split; [done|]. split; [done|].
  split; [done|]. split; [done|]. split; [done|].
  destruct Hset as (_ & _ & _ & Hfs & _).
  unfold send_outreach_email. unfold mbind at 1. unfold M_bind at 1.
  rewrite Hwait, Htpl, Hfmt.
  unfold mbind at 1. unfold M_bind at 1.
  unfold try_except, open_read, mbind at 1, M_bind at 1, mret, M_ret.
  rewrite Hfs, Hfile. reflexivity.
Qed.

Lemma omap_all_some {A B} (f : A → option B) (g : A → B) (l : list A) :
  Forall (λ x, f x = Some (g x)) l → omap f l = g <$> l.
Proof. induction 1 as [|x l Hx _ IH]; csimpl; [done|]. by rewrite Hx, IH. Qed.

(** The back-off sleeps that go with attempts [0 .. k-1] when all of them
    are followed by a retry. *)
Lemma backoff_before_last mr k :
  k ≤ mr - 1 →
  omap (λ a, if decide (a < mr - 1) then Some (2 ^ a) else None) (seqZ 0 k)
  = (λ a, 2 ^ a) <$> seqZ 0 k.
Proof.
  intros Hk. apply omap_all_some, Forall_seqZ. intros a Ha.
  by rewrite decide_True by lia.
Qed.

End retrying.

(** X4: the retry loop stops at the first session that goes through. When
    the first [k] sessions raise and the next one delivers, with
    [k < max_retries], the call opens exactly [k + 1] sessions, sleeps
    [2^0 .. 2^(k-1)] between them and 3 after the delivery, logs the success
    with the attempt count [k + 1] and returns. *)
Theorem stops_at_first_success `{Runtime} (self : OutreachManager)
    (hr_email hr_name company_name : string) (mr : option Z) (w : World) (k : nat) :
  1 ≤ calls_per_period (email_rate_limiter w) →
  composes self hr_name company_name w →
  Z.of_nat k < default (max_retries self) mr →
  (∀ i, (i < k)%nat → relay w (sessions w + i)%nat ≠ Delivered) →
  relay w (sessions w + k)%nat = Delivered →
  ∃ w' g before after,
    send_outreach_email self hr_email hr_name company_name mr w = (Ok (), w')
    ∧ trace w' = after ++ EvAcquire g :: before ++ trace w
    ∧ smtp_attempts before = []
    ∧ length (smtp_attempts after) = S k
    ∧ head (smtp_attempts after) = Some (hr_email, Delivered)
    ∧ sleeps after = 3 :: reverse ((λ a, 2 ^ a) <$> seqZ 0 (Z.of_nat k))
    ∧ after !! 1%nat
      = Some (EvLog INFO (SentSuccessfully hr_name hr_email (Z.of_nat k + 1)))
    ∧ sessions w' = (sessions w + S k)%nat.
Proof.
  intros HK Hcomp Hk Hfail Hok.
  destruct (send_reaches_loop self hr_email hr_name company_name mr w HK Hcomp)
    as (w1 & quiet & msg & Hwait & Hset & Hses & Htr & Hq & Hqs & ->).
  set (n := default (max_retries self) mr) in *.
  assert (seqZ 0 n = seqZ 0 (Z.of_nat k)
                     ++ Z.of_nat k :: seqZ (Z.succ (Z.of_nat k)) (Z.pred (n - Z.of_nat k)))
    as ->.
  { replace n with (Z.of_nat k + (n - Z.of_nat k)) at 1 by lia.
    by rewrite seqZ_app, (seqZ_cons _ (n - Z.of_nat k)) by lia. }
  destruct Hset as (_ & Hrl & _).
  destruct (attempt_loop_failures self msg hr_email hr_name n (seqZ 0 (Z.of_nat k)) w1)
    as (w2 & t & Hloop & Hset2 & Hses2 & Htr2 & Hgr2 & Hsmtp2 & Hsl2).
  { rewrite length_seqZ, Nat2Z.id, Hrl, Hses. exact Hfail. }
  rewrite length_seqZ, Nat2Z.id in Hses2, Hsmtp2.
  destruct Hset2 as (_ & Hrl2 & _).
  unfold mbind at 1. unfold M_bind at 1. rewrite Hloop.
  simpl. unfold mbind at 1. unfold M_bind at 1.
  unfold try_except, smtp_session, mbind, M_bind, log, emit, time_sleep, mret, M_ret.
  simpl. rewrite Hrl2, Hrl, Hses2, Hses, Hok. simpl.
  eexists _, (clock w1), quiet, (_ :: _ :: _ :: t). split; [reflexivity|]. simpl.
  rewrite Htr2, Htr. split; [reflexivity|]. split; [done|].
  rewrite Hsmtp2, Hsl2, backoff_before_last by lia.
  split; [simpl; by rewrite length_reverse, length_fmap, length_seq|].
  split; [done|]. split; [done|]. split; [done|lia].
Qed.

Lemma stops_at_first_success_witness :
  let w := office (λ i, if decide (i = 1%nat) then Delivered
                        else SessionRaises SMTPException) in
  ∃ w' g before after,
    send_outreach_email (H := sample_runtime) office_manager
      "jane@acme.com" "Jane" "Acme" None w = (Ok (), w')
    ∧ trace w' = after ++ EvAcquire g :: before ++ trace w
    ∧ smtp_attempts before = []
    ∧ length (smtp_attempts after) = 2%nat
    ∧ head (smtp_attempts after) = Some ("jane@acme.com", Delivered)
    ∧ sleeps after = 3 :: reverse ((λ a, 2 ^ a) <$> seqZ 0 (Z.of_nat 1))
    ∧ after !! 1%nat
      = Some (EvLog INFO (SentSuccessfully "Jane" "jane@acme.com" (Z.of_nat 1 + 1)))
    ∧ sessions w' = (sessions w + 2)%nat.
Proof.
  apply (stops_at_first_success (H := sample_runtime) office_manager
           "jane@acme.com" "Jane" "Acme" None
           (office (λ i, if decide (i = 1%nat) then Delivered
                         else SessionRaises SMTPException)) 1).
  - simpl. lia.
  - exists "Dear {recruiter_name} of {company_name}", "Dear Jane of Acme", "%PDF".
    split; [reflexivity|]. split; reflexivity.
  - simpl. lia.
  - intros i Hi. assert (i = 0%nat) as -> by lia. simpl. discriminate.
  - reflexivity.
Defined.




(** X6: a message that cannot be composed (template not loaded, a format
    error, attachment not readable) is never handed to the relay and is not
    retried, yet the call has already taken its turn at the rate limiter. *)
Theorem uncomposable_uses_a_slot `{Runtime} (self : OutreachManager)
    (hr_email hr_name company_name : string) (mr : option Z) (w : World) :
  1 ≤ calls_per_period (email_rate_limiter w) →
  ¬ composes self hr_name company_name w →
  ∃ r w' t g,
    send_outreach_email self hr_email hr_name company_name mr w = (r, w')
    ∧ trace w' = t ++ trace w
    ∧ granted t = [g]
    ∧ smtp_attempts t = []
    ∧ sessions w' = sessions w.
Proof.
  intros HK Hnot.
  destruct (wait_shape w) as (r0 & w1 & t1 & Hwait & Hset & Hses & Htr & Hsmtp & Hcase).
  destruct Hcase as [[-> (quiet & -> & Hquiet)]|(_ & _ & ?)]; [|lia].
  destruct Hset as (_ & _ & _ & Hfs & _).
  unfold send_outreach_email. unfold mbind at 1. unfold M_bind at 1. rewrite Hwait.
  destruct (template self) as [text|] eqn:Htpl.
  2:{ unfold log, emit. simpl. eexists _, _, (_ :: _ :: quiet), _.
      split; [reflexivity|]. simpl. rewrite Htr. split; [reflexivity|].
      simpl. rewrite Hquiet. by repeat split. }
  destruct (str_format text _) as [e|body] eqn:Hfmt.
  { assert (∃ r w2 t2, (match e with
                        | KeyError k => log ERROR (TemplateMissingPlaceholder (KeyError k))
                        | _ => raise e
                        end) w1 = (r, w2)
              ∧ trace w2 = t2 ++ trace w1 ∧ sessions w2 = sessions w1
              ∧ granted t2 = [] ∧ smtp_attempts t2 = [])
      as (r & w2 & t2 & -> & Htr2 & Hses2 & Hgr2 & Hsmtp2).
    { destruct e; try (by eexists _, w1, []). by eexists _, _, [_]. }
    exists r, w2, (t2 ++ EvAcquire (clock w1) :: quiet), (clock w1).
    split; [done|]. rewrite Htr2, Htr, <- app_assoc. split; [done|].
    rewrite granted_app, smtp_attempts_app, Hgr2, Hsmtp2. simpl.
    rewrite Hquiet. split; [done|]. split; [done|]. congruence. }
  destruct (files w !! resume_path self) as [[payload|]|] eqn:Hfile.
  { destruct Hnot. by exists text, body, payload. }
  all: unfold mbind at 1; unfold M_bind at 1;
    unfold try_except, open_read, mbind, M_bind, log, emit, mret, M_ret;
    rewrite Hfs, Hfile; simpl;
    eexists _, _, (_ :: _ :: quiet), _;
    (split; [reflexivity|]); simpl; rewrite Htr; (split; [reflexivity|]);
    simpl; rewrite Hquiet; by repeat split.
Qed.

Lemma uncomposable_uses_a_slot_witness :
  let self := mkOutreachManager "me@example.org" "secret" "docs/resume.pdf"
                "email_template.md" (Some "Dear {name}") "smtp.gmail.com" 587 10 3 in
  ∃ r w' t g,
    send_outreach_email (H := sample_runtime) self "jane@acme.com" "Jane" "Acme" None
      (office (λ _, Delivered)) = (r, w')
    ∧ trace w' = t ++ trace (office (λ _, Delivered))
    ∧ granted t = [g]
    ∧ smtp_attempts t = []
    ∧ sessions w' = sessions (office (λ _, Delivered)).
Proof.
  apply (uncomposable_uses_a_slot (H := sample_runtime)
           (mkOutreachManager "me@example.org" "secret" "docs/resume.pdf"
              "email_template.md" (Some "Dear {name}") "smtp.gmail.com" 587 10 3)
           "jane@acme.com" "Jane" "Acme" None (office (λ _, Delivered))).
  - simpl. lia.
  - intros (text & body & payload & Htpl & Hfmt & _).
    injection Htpl as <-. vm_compute in Hfmt. discriminate.
Defined.

(** * Splitting, joining and cleaning text *)

Lemma split_go_clean cur s :
  clean cur → Forall clean (split_go cur s).
Proof.
  unfold clean. revert cur. induction s as [|c s IH]; intros cur Hcur; simpl.
  - destruct cur; [constructor|]. constructor; [|constructor].
    by apply Forall_reverse.
  - destruct (is_space c) eqn:Hc.
    + destruct cur; [by apply IH|]. constructor; [by apply Forall_reverse|].
      by apply IH.
    + apply IH. by constructor.
Qed.

(** Reading a run of non-whitespace moves it into the token being read. *)
Lemma split_go_run cur token s :
  clean token → split_go cur (token ++ s) = split_go (reverse token ++ cur) s.
Proof.
  intros Htoken. revert cur. induction Htoken as [|c token Hc _ IH]; intros cur.
  - done.
  - simpl. rewrite Hc, IH, reverse_cons, <- app_assoc. done.
Qed.

Lemma split_go_spaced_out tokens :
  Forall (λ token, token ≠ [] ∧ clean token) tokens →
  split_go [] (spaced_out tokens) = tokens.
Proof.
  induction 1 as [|token rest [Hne Hclean] _ IH]; [done|].
  simpl. destruct rest as [|next rest].
  - pose proof (split_go_run [] token [] Hclean) as Hrun.
    rewrite !app_nil_r in Hrun. rewrite Hrun. simpl.
    destruct (reverse token) eqn:Hrev.
    + apply (f_equal reverse) in Hrev. rewrite reverse_involutive in Hrev. done.
    + by rewrite <- Hrev, reverse_involutive.
  - rewrite split_go_run by done. cbn [split_go]. rewrite app_nil_r.
    change (is_space " ") with true. cbn iota.
    destruct (reverse token) eqn:Hrev.
    + apply (f_equal reverse) in Hrev. rewrite reverse_involutive in Hrev. done.
    + rewrite <- Hrev, reverse_involutive. by rewrite IH.
Qed.

Lemma lstrip_clean_head c s : is_space c = false → lstrip (c :: s) = c :: s.
Proof. intros Hc. simpl. by rewrite Hc. Qed.

Lemma spaced_out_head tokens :
  Forall (λ token, token ≠ [] ∧ clean token) tokens →
  match spaced_out tokens with c :: _ => is_space c = false | [] => True end.
Proof.
  destruct 1 as [|token rest [Hne Hclean] _]; [done|].
  simpl. destruct token as [|c token]; [done|].
  inversion Hclean; subst. by destruct rest.
Qed.

Lemma spaced_out_last tokens :
  Forall (λ token, token ≠ [] ∧ clean token) tokens →
  match reverse (spaced_out tokens) with c :: _ => is_space c = false | [] => True end.
Proof.
  induction 1 as [|token rest [Hne Hclean] Hrest IH]; [done|].
  simpl. destruct rest as [|next rest].
  - destruct (reverse token) as [|c rev] eqn:Hrev; [done|].
    assert (c ∈ token) as Hin.
    { apply elem_of_reverse. rewrite Hrev. apply list_elem_of_here. }
    unfold clean in Hclean. rewrite Forall_forall in Hclean. by apply Hclean.
  - rewrite reverse_app, reverse_cons.
    destruct (reverse (spaced_out (next :: rest))) as [|c rev] eqn:Hrev.
    + apply (f_equal reverse) in Hrev. rewrite reverse_involutive in Hrev.
      inversion Hrest as [|? ? [Hnext _] _]; subst.
      simpl in Hrev. destruct next; [done|]. by destruct rest.
    + done.
Qed.

Lemma lstrip_id s :
  match s with c :: _ => is_space c = false | [] => True end → lstrip s = s.
Proof. destruct s as [|c s]; [done|]. apply lstrip_clean_head. Qed.

Lemma py_join_chars tokens :
  list_ascii_of_string (py_join " " (string_of_list_ascii <$> tokens))
  = spaced_out tokens.
Proof.
  induction tokens as [|token rest IH]; [done|].
  destruct rest as [|next rest].
  - simpl. apply list_ascii_of_string_of_list_ascii.
  - change (list_ascii_of_string
              (string_of_list_ascii token
               +:+ " " +:+ py_join " " (string_of_list_ascii <$> next :: rest))
            = token ++ " "%char :: spaced_out (next :: rest)).
    rewrite list_ascii_of_string_app, list_ascii_of_string_of_list_ascii.
    f_equal. rewrite list_ascii_of_string_app. by rewrite IH.
Qed.

Lemma py_split_tokens s :
  Forall (λ token, token ≠ [] ∧ clean token) (split_go [] (list_ascii_of_string s)).
Proof.
  apply Forall_and. split; [apply split_go_nonempty|].
  apply split_go_clean. constructor.
Qed.

Lemma clean_text_parts (s : string) :
  _clean_text (Some s) = py_join " " (py_split s)
  ∧ py_split (_clean_text (Some s)) = py_split s.
Proof.
  pose proof (py_split_tokens s) as Htok.
  assert (_clean_text (Some s) = py_join " " (py_split s)) as Hnorm.
  { unfold _clean_text, py_strip, py_split. rewrite py_join_chars.
    rewrite (lstrip_id (spaced_out _)) by by apply spaced_out_head.
    rewrite lstrip_id by by apply spaced_out_last.
    rewrite reverse_involutive, <- py_join_chars.
    apply string_of_list_ascii_of_string. }
  split; [done|].
  rewrite Hnorm. unfold py_split at 1. unfold py_split at 1.
  by rewrite py_join_chars, split_go_spaced_out.
Qed.

(** X8: [_clean_text] puts single spaces between the words of the text:
    the final [strip] changes nothing, the words are those of the input,
    cleaning twice is cleaning once, and [None] gives the empty string. *)
Theorem clean_text_normal_form (s : string) :
  _clean_text (Some s) = py_join " " (py_split s)
  ∧ py_split (_clean_text (Some s)) = py_split s
  ∧ _clean_text (Some (_clean_text (Some s))) = _clean_text (Some s)
  ∧ _clean_text None = "".
Proof.
  destruct (clean_text_parts s) as [Hnorm Hsame].
  split; [done|]. split; [done|]. split; [|done].
  unfold _clean_text at 1. fold (_clean_text (Some s)).
  rewrite Hsame. by rewrite Hnorm.
Qed.

(** * What [_find_email] finds *)

Lemma rep_greedy_sound cls k least s n :
  rep_greedy cls k least s = Some n →
  ∃ j m, n = (j + m)%nat ∧ (j ≤ length s)%nat ∧ (least ≤ j)%nat
         ∧ Forall (λ x, cls x = true) (take j s) ∧ k (drop j s) = Some m.
Proof.
  revert least n. induction s as [|x s IH]; intros least n; simpl.
  - destruct least; [|done]. intros Hk. exists 0%nat, n. by repeat split.
  - assert (match least with O => k (x :: s) | S _ => None end = Some n →
            ∃ j m, n = (j + m)%nat ∧ (j ≤ S (length s))%nat ∧ (least ≤ j)%nat
                   ∧ Forall (λ y, cls y = true) (take j (x :: s))
                   ∧ k (drop j (x :: s)) = Some m) as Hstop.
    { destruct least; [|done]. intros Hk. exists 0%nat, n.
      split; [done|]. split; [lia|]. by repeat split. }
    destruct (cls x) eqn:Hx; [|done].
    destruct (rep_greedy cls k (pred least) s) as [n'|] eqn:Hrec; [|done].
    intros [= <-]. destruct (IH _ _ Hrec) as (j & m & -> & Hj & Hleast & Hall & Hk).
    exists (S j), m. split; [done|]. split; [lia|]. split; [lia|].
    split; [by constructor|done].
Qed.

(** What the matcher reports is a match. *)
Lemma match_here_sound p s n :
  match_here p s = Some n → (n ≤ length s)%nat ∧ matches p (take n s).
Proof.
  revert s n. induction p as [|[c|cls least] p IH]; intros s n; simpl.
  - intros [= <-]. split; [lia|]. by rewrite take_0.
  - destruct s as [|x s]; [done|]. destruct (decide (x = c)) as [->|]; [|done].
    destruct (match_here p s) as [n'|] eqn:Hrec; [|done]. simpl. intros [= <-].
    destruct (IH _ _ Hrec) as [Hn Hm]. split; [simpl; lia|]. simpl. eauto.
  - intros Hrep.
    destruct (rep_greedy_sound _ _ _ _ _ Hrep) as (j & m & -> & Hj & Hleast & Hall & Hk).
    destruct (IH _ _ Hk) as [Hm Hmatch]. rewrite length_drop in Hm.
    split; [lia|]. exists (take j s), (take m (drop j s)).
    split.
    { rewrite <- (take_drop j s) at 1.
      by rewrite take_app_add' by (rewrite length_take; lia). }
    split; [done|]. split; [rewrite length_take; lia|done].
Qed.

(** The search returns the match at the first position that has one. *)
Lemma re_search_sound p s m :
  re_search p s = Some m →
  ∃ pre post, s = pre ++ m ++ post ∧ matches p m
    ∧ ∀ pre' u post', s = pre' ++ u ++ post' → matches p u →
                      (length pre ≤ length pre')%nat.
Proof.
  induction s as [|x s IH]; simpl.
  - destruct (match_here p []) as [n|] eqn:Hhere; [|done]. intros [= <-].
    destruct (match_here_sound _ _ _ Hhere) as [Hn Hm].
    exists [], []. rewrite take_nil in *. split; [done|]. split; [done|].
    intros. simpl. lia.
  - destruct (match_here p (x :: s)) as [n|] eqn:Hhere.
    + intros [= <-]. destruct (match_here_sound _ _ _ Hhere) as [Hn Hm].
      exists [], (drop n (x :: s)). split; [by rewrite take_drop|].
      split; [done|]. intros. simpl. lia.
    + intros Hrec. destruct (IH Hrec) as (pre & post & -> & Hm & Hleft).
      exists (x :: pre), post. split; [done|]. split; [done|].
      intros pre' u post' Heq Hu. destruct pre' as [|y pre'].
      * simpl in Heq. destruct (match_here_complete p u post' Hu) as [k Hk].
        rewrite <- Heq in Hk. congruence.
      * injection Heq as <- Heq. simpl. apply le_n_S. by eapply Hleft.
Qed.

Lemma matches_address m :
  matches email_regex m → address_shaped (string_of_list_ascii m).
Proof.
  simpl. intros (l & ? & -> & Hl & Hln & ? & -> & d & ? & -> & Hd & Hdn & ? & -> & t & ? & -> & Ht & Htn & ->).
  exists l, d, t. rewrite list_ascii_of_string_of_list_ascii, app_nil_r.
  split; [done|]. split; [by destruct l; [simpl in Hln; lia|]|]. split; [done|].
  split; [by destruct d; [simpl in Hdn; lia|]|]. done.
Qed.

Lemma string_of_list_ascii_app l1 l2 :
  string_of_list_ascii (l1 ++ l2) = string_of_list_ascii l1 +:+ string_of_list_ascii l2.
Proof. induction l1 as [|c l1 IH]; simpl; [done|]. by rewrite IH. Qed.

Lemma length_list_ascii_of_string s :
  length (list_ascii_of_string s) = String.length s.
Proof. induction s as [|c s IH]; simpl; [done|]. by rewrite IH. Qed.

Lemma _find_email_address_shaped text found :
  _find_email (Some text) = Some found → address_shaped found.
Proof.
  unfold _find_email.
  destruct (re_search email_regex (list_ascii_of_string text)) as [m|] eqn:Hsearch;
    [|done].
  intros [= <-]. destruct (re_search_sound _ _ _ Hsearch) as (_ & _ & _ & Hm & _).
  by apply matches_address.
Qed.

(** X9: what [_find_email] returns is an address of the pattern's shape, it
    is a piece of the text, and no address starts earlier in the text: it is
    the first one, as the docstring says. *)
Theorem find_email_first_address (text found : string) :
  _find_email (Some text) = Some found →
  address_shaped found
  ∧ ∃ pre post, text = pre +:+ found +:+ post
      ∧ ∀ pre' addr post', text = pre' +:+ addr +:+ post' → address_shaped addr →
                           (String.length pre ≤ String.length pre')%nat.
Proof.
  intros Hfound. split; [by eapply _find_email_address_shaped|].
  revert Hfound. unfold _find_email.
  destruct (re_search email_regex (list_ascii_of_string text)) as [m|] eqn:Hsearch;
    [|done].
  intros [= <-]. destruct (re_search_sound _ _ _ Hsearch) as (pre & post & Heq & Hm & Hleft).
  exists (string_of_list_ascii pre), (string_of_list_ascii post). split.
  - rewrite <- !string_of_list_ascii_app, <- Heq.
    symmetry. apply string_of_list_ascii_of_string.
  - intros pre' addr post' Htext Haddr.
    rewrite <- (length_list_ascii_of_string (string_of_list_ascii pre)),
      list_ascii_of_string_of_list_ascii, <- length_list_ascii_of_string.
    apply (Hleft _ (list_ascii_of_string addr) (list_ascii_of_string post')).
    + by rewrite Htext, !list_ascii_of_string_app.
    + by apply address_shaped_matches.
Qed.

Lemma find_email_first_address_witness :
  address_shaped "jane@acme.com"
  ∧ ∃ pre post, "Contact: jane@acme.com (HR)" = pre +:+ "jane@acme.com" +:+ post
      ∧ ∀ pre' addr post',
          "Contact: jane@acme.com (HR)" = pre' +:+ addr +:+ post' →
          address_shaped addr → (String.length pre ≤ String.length pre')%nat.
Proof.
  apply (find_email_first_address "Contact: jane@acme.com (HR)" "jane@acme.com").
  vm_compute. reflexivity.
Defined.

(** Facts about the character classes, by enumeration of the characters. *)
Lemma alpha_domain_char c : alpha c = true → domain_char c = true.
Proof. destruct c as [[] [] [] [] [] [] [] []]; by vm_compute. Qed.

Lemma alpha_not_dot c : alpha c = true → c ≠ "."%char.
Proof. destruct c as [[] [] [] [] [] [] [] []]; by vm_compute. Qed.

Lemma alpha_not_space c : alpha c = true → is_space c = false.
Proof. destruct c as [[] [] [] [] [] [] [] []]; by vm_compute. Qed.

Lemma local_not_space c : local_char c = true → is_space c = false.
Proof. destruct c as [[] [] [] [] [] [] [] []]; by vm_compute. Qed.

Lemma rep_greedy_to_end cls least l :
  Forall (λ x, cls x = true) l → (least ≤ length l)%nat →
  rep_greedy cls (match_here []) least l = Some (length l).
Proof.
  intros Hl. revert least. induction Hl as [|x l Hx _ IH]; intros least Hleast; simpl.
  - simpl in Hleast. by assert (least = 0%nat) as -> by lia.
  - rewrite Hx, IH by (simpl in Hleast; lia). done.
Qed.

Lemma rep_greedy_stop cls k least l x rest m :
  Forall (λ y, cls y = true) l → cls x = false → k (x :: rest) = Some m →
  (least ≤ length l)%nat →
  rep_greedy cls k least (l ++ x :: rest) = Some (length l + m)%nat.
Proof.
  intros Hl Hx Hk. revert least. induction Hl as [|y l Hy _ IH]; intros least Hleast; simpl.
  - simpl in Hleast. assert (least = 0%nat) as -> by lia. by rewrite Hx.
  - rewrite Hy, IH by (simpl in Hleast; lia). done.
Qed.

Lemma rep_greedy_none cls k least s :
  Forall (λ y, cls y = true) s → (∀ s1 s2, s = s1 ++ s2 → k s2 = None) →
  rep_greedy cls k least s = None.
Proof.
  intros Hs. revert least. induction Hs as [|y s Hy _ IH]; intros least Hk; simpl.
  - destruct least; [|done]. by apply (Hk []).
  - rewrite Hy, IH.
    + destruct least; [|done]. by apply (Hk []).
    + intros s1 s2 ->. by apply (Hk (y :: s1)).
Qed.

(** A repetition that runs to the end of the text gives back what it took,
    one character at a time, until the rest of the pattern matches. *)
Lemma rep_greedy_backtrack cls k least r s m :
  Forall (λ y, cls y = true) r → Forall (λ y, cls y = true) s →
  (∀ s1 s2, s = s1 ++ s2 → s1 ≠ [] → k s2 = None) → k s = Some m →
  (least ≤ length r)%nat →
  rep_greedy cls k least (r ++ s) = Some (length r + m)%nat.
Proof.
  intros Hr Hs Hfail Hk. revert least.
  induction Hr as [|y r Hy _ IH]; intros least Hleast; simpl.
  - simpl in Hleast. assert (least = 0%nat) as -> by lia.
    destruct Hs as [|x s Hx Hs]; simpl; [done|].
    rewrite Hx, rep_greedy_none; [done|done|].
    intros s1 s2 ->. by apply (Hfail (x :: s1)).
  - rewrite Hy, IH by (simpl in Hleast; lia). done.
Qed.

(** An address is matched whole where it stands alone. *)
Lemma address_matched_whole (l d t : list ascii) :
  l ≠ [] → Forall (λ x, local_char x = true) l →
  d ≠ [] → Forall (λ x, domain_char x = true) d →
  (2 ≤ length t)%nat → Forall (λ x, alpha x = true) t →
  match_here email_regex (l ++ "@"%char :: d ++ "."%char :: t)
  = Some (length (l ++ "@"%char :: d ++ "."%char :: t)).
Proof.
  intros Hl Hlc Hd Hdc Ht Htc. unfold email_regex.
  cbn [match_here].
  assert (match_here [Lit "."; Rep alpha 2] ("."%char :: t) = Some (S (length t))) as Htld.
  { cbn [match_here]. rewrite decide_True by done.
    by rewrite rep_greedy_to_end. }
  rewrite (rep_greedy_stop _ _ _ l "@"%char _ (S (length d + S (length t)))).
  - f_equal. rewrite !length_app. simpl. rewrite length_app. simpl. lia.
  - done.
  - done.
  - cbn [match_here]. rewrite decide_True by done.
    rewrite (rep_greedy_backtrack _ _ _ d _ (S (length t))).
    + done.
    + done.
    + constructor; [done|]. eapply Forall_impl; [exact Htc|]. apply alpha_domain_char.
    + intros s1 s2 Heq Hs1. destruct s1 as [|x s1]; [done|].
      injection Heq as <- ->. destruct s2 as [|y s2]; [done|].
      cbn [match_here]. rewrite decide_False; [done|].
      apply alpha_not_dot. rewrite Forall_forall in Htc. apply Htc.
      apply elem_of_app. right. apply list_elem_of_here.
    + exact Htld.
    + destruct d; [done|simpl; lia].
  - destruct l; [done|simpl; lia].
Qed.

Lemma re_search_here p s n :
  match_here p s = Some n → re_search p s = Some (take n s).
Proof. intros Hn. destruct s; simpl; by rewrite Hn. Qed.

Lemma address_shaped_fixed addr :
  address_shaped addr → _find_email (Some addr) = Some addr ∧ py_strip addr = addr.
Proof.
  intros (l & d & t & Heq & Hl & Hlc & Hd & Hdc & Ht & Htc). split.
  - unfold _find_email. rewrite Heq.
    assert (re_search email_regex (l ++ "@"%char :: d ++ "."%char :: t)
            = Some (l ++ "@"%char :: d ++ "."%char :: t)) as ->.
    { rewrite (re_search_here _ _ _ (address_matched_whole l d t Hl Hlc Hd Hdc Ht Htc)).
      by rewrite take_ge. }
    simpl. rewrite <- Heq. f_equal. apply string_of_list_ascii_of_string.
  - unfold py_strip. rewrite Heq.
    rewrite (lstrip_id (l ++ _)).
    2:{ destruct l as [|x l]; [done|]. simpl. apply local_not_space.
        by inversion Hlc. }
    rewrite lstrip_id, reverse_involutive, <- Heq.
    { apply string_of_list_ascii_of_string. }
    rewrite reverse_app, reverse_cons, reverse_app, reverse_cons.
    destruct (reverse t) as [|x rev] eqn:Hrev.
    { apply (f_equal reverse) in Hrev. rewrite reverse_involutive in Hrev.
      subst t. simpl in Ht. lia. }
    simpl. apply alpha_not_space. rewrite Forall_forall in Htc. apply Htc.
    apply elem_of_reverse. rewrite Hrev. apply list_elem_of_here.
Qed.

(** X10: an address that [_find_email] has found is found again, whole, in
    itself, and [strip] leaves it as it is: extracting twice is extracting
    once. *)
Theorem find_email_idempotent (text found : string) :
  _find_email (Some text) = Some found →
  _find_email (Some found) = Some found ∧ py_strip found = found.
Proof. intros Hfound. by apply address_shaped_fixed, (_find_email_address_shaped text). Qed.

Lemma find_email_idempotent_witness :
  _find_email (Some "jane@acme.com.") = Some "jane@acme.com"
  ∧ _find_email (Some "jane@acme.com") = Some "jane@acme.com"
  ∧ py_strip "jane@acme.com" = "jane@acme.com".
Proof.
  assert (_find_email (Some "jane@acme.com.") = Some "jane@acme.com") as Hfound
    by (vm_compute; reflexivity).
  split; [exact Hfound|].
  exact (find_email_idempotent "jane@acme.com." "jane@acme.com" Hfound).
Defined.

(** * Further properties of the dispatcher *)

Lemma truthy_str_false s : truthy (PyStr s) = false ↔ s = "".
Proof. simpl. destruct (String.eqb_spec s ""); simpl; split; congruence. Qed.

(** What a submitted task is made of. *)
Lemma submit_one_some self (r : gmap string pyval) w f :
  (submit_one self r w).1 = Ok (Some f) →
  ∃ v first rest,
    r !! "Email" = Some v
    ∧ py_split (py_str (default (PyStr "HR") (r !! "Name"))) = first :: rest
    ∧ is_Some (_find_email (Some (py_strip (py_str v))))
    ∧ f = mkTask (py_strip (py_str v)) first (company_of r).
Proof.
  unfold submit_one, try_except, mbind, M_bind, mret, M_ret, raise, log, emit, company_of.
  destruct (r !! "Email") as [v|] eqn:Hemail; [|done].
  destruct (py_split (py_str (default (PyStr "HR") (r !! "Name"))))
    as [|first rest] eqn:Hsplit; [done|].
  destruct (_find_email (Some (py_strip (py_str v)))) as [m|] eqn:Hfind; [|done].
  cbn [from_option]. rewrite (_find_email_truthy _ _ Hfind).
  rewrite (py_split_truthy _ _ _ Hsplit). cbn [negb fst].
  intros [= <-]. exists v, first, rest. split; [done|]. split; [done|]. split; [eauto|].
  f_equal.
  generalize (py_strip (py_str (default (PyStr "your company") (r !! "Company")))).
  intros c. simpl. destruct (String.eqb_spec c ""); simpl.
  - by rewrite decide_True.
  - by rewrite decide_False.
Qed.

(** X7: a record is submitted exactly when it has an [Email] entry whose
    stripped text contains an address and a name with at least one token;
    the task then carries the stripped field, the first token of the name
    and the company (or its placeholder). In every other case nothing is
    submitted. *)
Theorem submitted_iff (self : OutreachManager) (r : gmap string pyval) (w : World)
    (f : task) :
  (submit_one self r w).1 = Ok (Some f)
  ↔ ∃ v first rest,
      r !! "Email" = Some v
      ∧ py_split (py_str (default (PyStr "HR") (r !! "Name"))) = first :: rest
      ∧ is_Some (_find_email (Some (py_strip (py_str v))))
      ∧ f = mkTask (py_strip (py_str v)) first (company_of r).
Proof.
  split; [apply submit_one_some|].
  intros (v & first & rest & Hemail & Hsplit & [m Hfind] & ->).
  destruct (first_name_token self r v first rest m w Hemail Hsplit Hfind)
    as (company & Hrun).
  pose proof Hrun as Hrun'. apply (f_equal fst) in Hrun'. simpl in Hrun'.
  destruct (submit_one_some self r w _ Hrun')
    as (v' & first' & rest' & Hemail' & Hsplit' & _ & Heq).
  rewrite Hrun'. congruence.
Qed.

Lemma py_split_first_token s first rest :
  py_split s = first :: rest → first ≠ "" ∧ py_split first = [first].
Proof.
  unfold py_split. intros Hsplit.
  pose proof (py_split_tokens s) as Htok.
  destruct (split_go [] (list_ascii_of_string s)) as [|token tokens]; [done|].
  simpl in Hsplit. injection Hsplit as <- _.
  inversion Htok as [|? ? [Hne Hclean] _]; subst.
  split; [by apply string_of_list_ascii_nonempty|].
  rewrite list_ascii_of_string_of_list_ascii.
  pose proof (split_go_run [] token [] Hclean) as Hrun.
  rewrite !app_nil_r in Hrun. rewrite Hrun. simpl.
  destruct (reverse token) eqn:Hrev.
  - apply (f_equal reverse) in Hrev. rewrite reverse_involutive in Hrev. done.
  - by rewrite <- Hrev, reverse_involutive.
Qed.

(** X11: a submitted task never has an empty field: its address is not
    empty, its name is one word without whitespace, and its company is not
    empty, so the template is never filled with blanks. *)
Theorem submitted_task_fields (self : OutreachManager) (r : gmap string pyval)
    (w : World) (f : task) :
  (submit_one self r w).1 = Ok (Some f) →
  task_email f ≠ ""
  ∧ task_name f ≠ "" ∧ py_split (task_name f) = [task_name f]
  ∧ task_company f ≠ "".
Proof.
  intros Hrun.
  destruct (submit_one_some self r w f Hrun)
    as (v & first & rest & Hemail & Hsplit & [m Hfind] & ->). simpl.
  split; [|split; [|split]].
  - intros Hempty. rewrite Hempty in Hfind. discriminate.
  - by destruct (py_split_first_token _ _ _ Hsplit).
  - by destruct (py_split_first_token _ _ _ Hsplit).
  - unfold company_of. by case_decide.
Qed.

Lemma submitted_task_fields_witness :
  task_email (mkTask "jane@acme.com" "Jane" "your company") ≠ ""
  ∧ task_name (mkTask "jane@acme.com" "Jane" "your company") ≠ ""
  ∧ py_split (task_name (mkTask "jane@acme.com" "Jane" "your company"))
    = [task_name (mkTask "jane@acme.com" "Jane" "your company")]
  ∧ task_company (mkTask "jane@acme.com" "Jane" "your company") ≠ "".
Proof.
  apply (submitted_task_fields office_manager
           {[ "Name" := PyStr "  Jane   Doe"; "Company" := PyStr "  ";
              "Email" := PyStr "jane@acme.com" ]} blank).
  vm_compute. reflexivity.
Defined.

Lemma omap_length_le {A B} (f : A → option B) (l : list A) :
  (length (omap f l) ≤ length l)%nat.
Proof. induction l as [|x l IH]; csimpl; [done|]. destruct (f x); simpl; lia. Qed.

Section batch_bounds.
Context `{Runtime}.

(** Joining the futures, counted: every task takes exactly one turn at the
    limiter, whatever became of the tasks before it, and opens at most
    [max_retries] sessions. *)
Lemma join_all_counts self futures w :
  1 ≤ calls_per_period (email_rate_limiter w) →
  ∃ w' t, join_all self futures w = (Ok (), w')
    ∧ trace w' = t ++ trace w
    ∧ length (granted t) = length futures
    ∧ (length (smtp_attempts t) ≤ length futures * Z.to_nat (max_retries self))%nat.
Proof.
  revert w. induction futures as [|f futures IH]; intros w HK.
  - exists w, []. by repeat split.
  - simpl. unfold mbind at 1. unfold M_bind at 1. unfold try_except.
    destruct (send_outreach_email_shape self (task_email f) (task_name f)
                (task_company f) None w)
      as (r & w1 & before & after & -> & Hexit & Hset & Htr & Hsmtp & Hgr & _ & Hlen & Hcase).
    destruct Hcase as [(g & quiet & -> & Hquiet)|(_ & _ & _ & ?)]; [|lia].
    assert (∃ w2 t2, (match r with
                      | Ok a => (Ok a, w1)
                      | Raise e => log ERROR (TaskFailed e) w1
                      | Exit code => (Exit code, w1)
                      end) = (Ok (), w2)
                     ∧ trace w2 = t2 ++ trace w1 ∧ smtp_attempts t2 = []
                     ∧ granted t2 = []
                     ∧ calls_per_period (email_rate_limiter w2)
                       = calls_per_period (email_rate_limiter w1))
      as (w2 & t2 & -> & Htr2 & Hsmtp2 & Hgr2 & HK2).
    { destruct r as [[]|e|code].
      - by exists w1, [].
      - by eexists _, [_].
      - by destruct (Hexit code). }
    destruct Hset as (_ & _ & _ & _ & HK1 & _).
    destruct (IH w2) as (w3 & t3 & -> & Htr3 & Hgr3 & Hlen3); [lia|].
    exists w3, (t3 ++ t2 ++ after ++ EvAcquire g :: quiet).
    split; [done|]. split; [by rewrite Htr3, Htr2, Htr, <- !app_assoc|].
    rewrite !granted_app, !smtp_attempts_app, !length_app, Hgr3, Hgr2, Hgr, Hsmtp2.
    simpl in *. rewrite Hquiet, Hsmtp. simpl. split; lia.
Qed.

End batch_bounds.

(** X12: in a batch every submitted task takes exactly one turn at the rate
    limiter, also after other tasks have failed or raised, and the batch
    opens at most [max_retries] sessions per submitted task. *)
Theorem batch_runs_every_task `{Runtime} (self : OutreachManager)
    (recruiters : list (gmap string pyval)) (w : World) :
  0 < max_threads self →
  1 ≤ calls_per_period (email_rate_limiter w) →
  ∃ futures w1 w' t,
    submit_all self recruiters w = (Ok futures, w1)
    ∧ (length futures ≤ length recruiters)%nat
    ∧ send_emails_concurrently self recruiters w = (Ok PyNone, w')
    ∧ trace w' = t ++ trace w
    ∧ length (granted t) = length futures
    ∧ (length (smtp_attempts t) ≤ length futures * Z.to_nat (max_retries self))%nat.
Proof.
  intros Hpool HK. unfold send_emails_concurrently. rewrite decide_False by lia.
  unfold mbind at 1. unfold M_bind at 1.
  destruct (submit_all_world self recruiters w) as (t1 & Hsub & Hsmtp1 & Hgr1).
  rewrite Hsub. unfold mbind, M_bind.
  destruct (join_all_counts self (omap (triage self) recruiters) (logged w t1))
    as (w2 & t2 & -> & Htr2 & Hgr2 & Hlen2); [done|].
  exists (omap (triage self) recruiters), (logged w t1), w2, (t2 ++ t1).
  split; [done|]. split; [apply omap_length_le|]. split; [done|].
  simpl in Htr2. split; [by rewrite Htr2, app_assoc|].
  rewrite granted_app, smtp_attempts_app, !length_app, Hgr1, Hsmtp1.
  cbn [length]. rewrite !Nat.add_0_r. by split.
Qed.

Lemma batch_runs_every_task_witness :
  ∃ futures w1 w' t,
    submit_all office_manager [jane_doe; blank_name; no_name]
      (office (λ _, SessionRaises OSError)) = (Ok futures, w1)
    ∧ (length futures ≤ 3)%nat
    ∧ send_emails_concurrently (H := sample_runtime) office_manager
        [jane_doe; blank_name; no_name] (office (λ _, SessionRaises OSError))
      = (Ok PyNone, w')
    ∧ trace w' = t ++ trace (office (λ _, SessionRaises OSError))
    ∧ length (granted t) = length futures
    ∧ (length (smtp_attempts t) ≤ length futures * Z.to_nat (max_retries office_manager))%nat.
Proof.
  apply (batch_runs_every_task (H := sample_runtime) office_manager
           [jane_doe; blank_name; no_name] (office (λ _, SessionRaises OSError))).
  - simpl. lia.
  - simpl. lia.
Defined.

(** * Further properties of [main] *)


(** With a complete installation the constructor reads the template and
    then converts [SMTP_PORT]. *)
Lemma OutreachManager_init_port `{Runtime} w e :
  installation_complete w →
  py_int (from_option PyStr (PyInt 587) (environ w !! "SMTP_PORT")) = inl e →
  OutreachManager_init w
  = (Raise e,
     logged w [EvLog INFO (TemplateLoaded
                 (default "email_template.md" (environ w !! "EMAIL_TEMPLATE_PATH")))]).
Proof.
  intros (_ & (user & password & Huser & Hu & Hpw & Hp) & (path & Hpath & Hne & [f Hf])
          & text & Htext) Hint.
  unfold OutreachManager_init, config_int, config_get, mbind, M_bind, mret, M_ret, raise.
  rewrite Huser, Hpw, Hpath. simpl.
  destruct (String.eqb_spec user ""); [done|].
  destruct (String.eqb_spec password ""); [done|].
  destruct (String.eqb_spec path ""); [done|]. simpl.
  unfold path_exists. rewrite Hf. simpl.
  unfold load_template, try_except, open_read, log, emit, mbind, M_bind, mret, M_ret, lift.
  simpl.
  destruct (environ w !! "EMAIL_TEMPLATE_PATH") as [tp|]; simpl in *;
    rewrite Htext; simpl;
    (destruct (environ w !! "SMTP_PORT"); simpl in *; by rewrite Hint).
Qed.

(** X14: a port that [int] refuses is reported like a missing setting: with
    everything else in place, a [ValueError] from [int(SMTP_PORT)] is
    caught by [main], logged as a configuration error after the template
    has been read, and ends the run with [sys.exit(1)]. *)
Theorem bad_port_is_configuration_error `{Runtime} (args : Namespace) (w : World)
    (msg : string) :
  installation_complete w →
  py_int (from_option PyStr (PyInt 587) (environ w !! "SMTP_PORT"))
  = inl (ValueError msg) →
  main args w
  = (Exit 1,
     logged w [EvLog ERROR (ConfigurationError (ValueError msg));
               EvLog INFO (TemplateLoaded
                 (default "email_template.md" (environ w !! "EMAIL_TEMPLATE_PATH")))]).
Proof.
  intros Hok Hint. pose proof (OutreachManager_init_port w _ Hok Hint) as Hinit.
  destruct Hok as ([f Henv] & _).
  unfold main, try_except, ConfigLoader_init, path_exists, mbind, M_bind.
  simpl. rewrite Henv. simpl. rewrite Hinit. reflexivity.
Qed.

Lemma bad_port_is_configuration_error_witness :
  let w := boot 0 (λ _, 0) (λ _, Delivered)
             (<["SMTP_PORT" := "smtp"]> office_environ) office_files
             (RateLimiter_fields 1 1) in
  main (H := sample_runtime) (mkNamespace None (Some "list.csv")) w
  = (Exit 1,
     logged w [EvLog ERROR (ConfigurationError (ValueError "invalid literal for int()"));
               EvLog INFO (TemplateLoaded
                 (default "email_template.md" (environ w !! "EMAIL_TEMPLATE_PATH")))]).
Proof.
  apply (bad_port_is_configuration_error (H := sample_runtime)).
  - split; [by eexists|]. split; [exists "me@example.org", "secret"; by repeat split|].
    split; [exists "docs/resume.pdf"; split; [reflexivity|]; split; [done|by eexists]|].
    by eexists.
  - reflexivity.
Defined.

(** * The PDF loader *)

Section loader.
Import Loader.
Context `{Pdf}.

Lemma process_row_data i row st :
  processed_data (process_row i row st)
  = processed_data st ++ from_option (λ r, [r]) [] (row_record row).
Proof.
  unfold process_row, row_record.
  destruct (decide (length row ≠ 5%nat)) as [Hlen|Hlen].
  - rewrite decide_False by done. simpl. by rewrite app_nil_r.
  - rewrite decide_True by (by destruct (decide (length row = 5%nat))).
    destruct (_find_email (Some (cell_str (cell row 2)))) as [email|] eqn:Hfind.
    + by rewrite (_find_email_truthy _ _ Hfind).
    + simpl. by rewrite app_nil_r.
Qed.

Lemma process_rows_data i rows st :
  processed_data (process_rows i rows st)
  = processed_data st ++ omap row_record rows.
Proof.
  unfold process_rows. revert st. induction rows as [|row rows IH]; intros st; csimpl.
  - by rewrite app_nil_r.
  - rewrite IH, process_row_data, <- app_assoc. by destruct (row_record row).
Qed.

Lemma process_page_data i p st :
  processed_data (process_page i p st)
  = processed_data st ++ omap row_record (page_rows i p).
Proof.
  unfold process_page, page_rows.
  destruct p as [e|[[|row rows]|]]; simpl; rewrite ?app_nil_r; try done.
  - destruct (decide (0 < i)%nat); simpl; by rewrite ?app_nil_r.
  - apply process_rows_data.
Qed.

Lemma process_pages_data i pages st :
  processed_data (process_pages i pages st)
  = processed_data st
    ++ mjoin (imap (λ j p, omap row_record (page_rows (i + j) p)) pages).
Proof.
  revert i st. induction pages as [|p pages IH]; intros i st; simpl.
  - by rewrite app_nil_r.
  - rewrite IH, process_page_data, <- app_assoc, Nat.add_0_r. do 3 f_equal.
    apply imap_ext. intros j q _. simpl. do 2 f_equal. lia.
Qed.

End loader.

(** X15: the records the loader collects are those of the rows with five
    cells whose third cell contains an address, in page and row order; a
    page whose extraction raises or that has no table adds nothing and
    leaves the other pages alone; the first row is left out on every page
    but the first. *)
Theorem loader_collects_rows (pages : list Loader.page) :
  Loader.processed_data (Loader.process_pages 0 pages (Loader.mkLoading [] []))
  = mjoin (imap (λ i p, omap Loader.row_record (Loader.page_rows i p)) pages).
Proof. by rewrite process_pages_data. Qed.

(** A collected record: cleaned name and company round an address. *)
Lemma row_record_shape row r :
  Loader.row_record row = Some r →
  ∃ email,
    r = {[ "Name" := PyStr (_clean_text (Loader.cell row 1));
           "Email" := PyStr email;
           "Company" := PyStr (_clean_text (Loader.cell row 4)) ]}
    ∧ address_shaped email.
Proof.
  unfold Loader.row_record. case_decide; [|done].
  destruct (_find_email _) as [email|] eqn:Hfind; [|done]. simpl.
  intros [= <-]. exists email. split; [done|]. by eapply _find_email_address_shaped.
Qed.

Lemma collected_shape (pages : list Loader.page) :
  Forall (λ r, ∃ name email company,
            r = {[ "Name" := PyStr (_clean_text name); "Email" := PyStr email;
                   "Company" := PyStr (_clean_text company) ]}
            ∧ address_shaped email)
    (Loader.processed_data (Loader.process_pages 0 pages (Loader.mkLoading [] []))).
Proof.
  rewrite process_pages_data. simpl. apply Forall_forall. intros r Hr.
  apply list_elem_of_join in Hr as (l & Hr & Hl).
  apply elem_of_lookup_imap in Hl as (i & p & -> & _).
  apply list_elem_of_omap in Hr as (row & _ & Hrow).
  destruct (row_record_shape row r Hrow) as (email & -> & Haddr). eauto 10.
Qed.

Lemma to_dict_DataFrame (data : list (gmap string pyval)) :
  Forall (λ r, ∃ name email company,
            r = {[ "Name" := PyStr name; "Email" := PyStr email;
                   "Company" := PyStr company ]}) data →
  to_dict_records (Loader.DataFrame data) = data.
Proof.
  unfold to_dict_records, Loader.DataFrame. cbn [rows columns].
  rewrite <- list_fmap_compose.
  induction 1 as [|r data (name & email & company & ->) _ IH]; [done|].
  rewrite fmap_cons, IH. f_equal; try (vm_compute; reflexivity).
Qed.

Lemma clean_text_stripped text : py_strip (_clean_text text) = _clean_text text.
Proof.
  destruct text as [s|]; [|done].
  destruct (clean_text_parts s) as [Hnorm _].
  unfold _clean_text in *. by rewrite !Hnorm.
Qed.


(** X17: every record the PDF loader hands on carries an address that the
    dispatcher accepts: it is submitted, addressed to exactly the extracted
    address and named after the first word of its name, unless its name
    cell is blank, in which case the dispatcher drops it. *)
Theorem loaded_records_are_deliverable `{Loader.Pdf} (file_path : string)
    (files : gmap string file) (df : frame) (self : OutreachManager) (w : World) :
  Loader.returned (Loader.load_recruiters_from_pdf file_path files) = Some df →
  Forall (λ r, ∃ name email,
            r !! "Name" = Some (PyStr name) ∧ r !! "Email" = Some (PyStr email)
            ∧ address_shaped email
            ∧ match py_split name with
              | [] => (submit_one self r w).1 = Ok None
              | first :: _ =>
                  (submit_one self r w).1
                  = Ok (Some (mkTask email first (company_of r)))
              end)
    (to_dict_records df).
Proof.
  unfold Loader.load_recruiters_from_pdf.
  destruct (Loader.pdf_open file_path) as [e|pages]; [done|].
  pose proof (collected_shape pages) as Hshape.
  destruct (Loader.processed_data _) as [|r0 data] eqn:Hdata; [done|].
  destruct (Loader.to_csv _) as [e|text]; [done|]. simpl. intros [= <-].
  rewrite to_dict_DataFrame.
  2:{ eapply Forall_impl; [exact Hshape|]. simpl. intros r (n & e & c & -> & _). eauto. }
  eapply Forall_impl; [exact Hshape|]. simpl.
  intros r (n & email & c & -> & Haddr).
  generalize (_clean_text n) (_clean_text c). intros name company.
  set (r := ({[ "Name" := PyStr name; "Email" := PyStr email;
                "Company" := PyStr company ]} : gmap string pyval)).
  assert (r !! "Name" = Some (PyStr name)) as Hname by (by vm_compute).
  assert (r !! "Email" = Some (PyStr email)) as Hemail by (by vm_compute).
  exists name, email. split; [done|]. split; [done|]. split; [done|].
  destruct (address_shaped_fixed email Haddr) as [Hfind Hstrip].
  destruct (py_split name) as [|first rest] eqn:Hsplit.
  - rewrite (tokenless_name_dropped self r (PyStr email) w Hemail); [done|].
    by rewrite Hname.
  - destruct (first_name_token self r (PyStr email) first rest email w Hemail)
      as (company' & Hrun).
    { by rewrite Hname. }
    { simpl. by rewrite Hstrip. }
    pose proof Hrun as Hfst. apply (f_equal fst) in Hfst. simpl in Hfst.
    destruct (submit_one_some self r w _ Hfst) as (v & f' & rest' & Hv & Hs & _ & Heq).
    rewrite Hfst, Heq. rewrite Hemail in Hv. injection Hv as <-.
    rewrite Hname in Hs. simpl in Hs. rewrite Hsplit in Hs. injection Hs as <- _.
    simpl. by rewrite Hstrip.
Qed.

Lemma loaded_records_are_deliverable_witness :
  Forall (λ r, ∃ name email,
            r !! "Name" = Some (PyStr name) ∧ r !! "Email" = Some (PyStr email)
            ∧ address_shaped email
            ∧ match py_split name with
              | [] => (submit_one office_manager r blank).1 = Ok None
              | first :: _ =>
                  (submit_one office_manager r blank).1
                  = Ok (Some (mkTask email first (company_of r)))
              end)
    (to_dict_records
       (mkFrame ["Name"; "Email"; "Company"]
          [ [PyStr "Jane Doe"; PyStr "jane@acme.com"; PyStr "Acme Corp"];
            [PyStr ""; PyStr "hr@initech.io"; PyStr ""] ])).
Proof.
  apply (loaded_records_are_deliverable (H := sample_pdf) "recruiters.pdf" ∅).
  vm_compute. reflexivity.
Defined.

(** The loader on the sample document: the header row of the first page is
    read like any row and dropped for want of an address, the page that
    raises is logged and skipped, the first row of the last page is not
    read, and the row with a blank name is kept. *)
Example sample_load :
  let res := Loader.load_recruiters_from_pdf (H := sample_pdf) "recruiters.pdf" ∅ in
  Loader.returned res
  = Some (mkFrame ["Name"; "Email"; "Company"]
            [ [PyStr "Jane Doe"; PyStr "jane@acme.com"; PyStr "Acme Corp"];
              [PyStr ""; PyStr "hr@initech.io"; PyStr ""] ])
  ∧ (fst <$> reverse (Loader.log_lines res)) = [WARNING; WARNING; ERROR; WARNING; INFO]
  ∧ is_Some (Loader.files_after res !! "recruiters_list.csv")
  ∧ Loader.returned (Loader.load_recruiters_from_pdf (H := sample_pdf) "missing.pdf" ∅)
    = None.
Proof. vm_compute. repeat split; eauto. Qed.

(** * The logger wrapper *)

Section logger.
Import Logging.





End logger.


(** Two instantiations of one name with different levels. *)
Example logger_twice :
  Logging.Logger_inits [("outreach", 20); ("main", 20); ("outreach", 30)] ∅ !! "outreach"
  = Some (Logging.mkPyLogger 30
            [Logging.mkHandler 20 "%(asctime)s - %(name)s - %(levelname)s - %(message)s"]).
Proof. by vm_compute. Qed.
